(** * A two-dimensional Ising model under single-spin-flip Metropolis dynamics

    Shallow embedding of the class [IsingSimulation] of
    [Classwork/12.2.ipynb] and the properties of its operations, followed
    by the experiments run on the class and by the functions of the network
    notebook: the two average degrees of a graph and the synchronous SIS
    update.

    Conventions of the embedding.
    - The lattice [self.state] is a two-dimensional numpy array of
      integers; it is a list of rows, each row a list of [Z].
    - Python integers ([size], [step], the cell indices) are [Z].
    - Python floats ([J], [kB], [temperature], the uniform draw, the energy,
      the magnetism) are real numbers: rounding, infinities and NaN are not
      part of the model.  The statements therefore stay on positive
      temperatures and on draws inside (0,1), where no division by zero
      and no logarithm of zero occurs, and none of them equates two values
      that the program rounds separately.
    - The ambient random generator is made explicit: the constructor takes
      the outcome of every coin, [update] takes the pair of indices returned
      by [randint] and the value returned by [uniform].
    - [display] only plots the lattice and is left out. *)

From Stdlib Require Import ZArith QArith Reals Lia Lra.
From stdpp Require Import base numbers list gmap.

#[local] Open Scope Z_scope.

(** ** The numpy operations used by the class *)

Module np.

(** [a.sum()] on a one-dimensional array. *)
Definition sum1 (a : list Z) : Z := foldr Z.add 0 a.

(** [a.sum()] on a two-dimensional array: all the elements, flattened. *)
Definition sum (a : list (list Z)) : Z := sum1 (concat a).

(** [a.size]: the number of elements. *)
Definition count (a : list (list Z)) : nat := length (concat a).

(** Elementwise [a + b] and [a * b] on two-dimensional arrays. *)
Definition add (a b : list (list Z)) : list (list Z) :=
  zip_with (zip_with Z.add) a b.

Definition mul (a b : list (list Z)) : list (list Z) :=
  zip_with (zip_with Z.mul) a b.

(** [roll(a, shift)] along the first axis of [a]: with
    [offset = shift % n], the result is [a[n-offset:]] followed by
    [a[:n-offset]]. *)
Definition roll {A : Type} (shift : nat) (a : list A) : list A :=
  let n := length a in
  let offset := (shift mod n)%nat in
  drop (n - offset) a ++ take (n - offset) a.

Definition roll_axis0 (shift : nat) (a : list (list Z)) : list (list Z) :=
  roll shift a.

Definition roll_axis1 (shift : nat) (a : list (list Z)) : list (list Z) :=
  roll shift <$> a.

(** [a[i, j]] for indices that are not negative. *)
Definition item (a : list (list Z)) (i j : Z) : Z :=
  (a !!! Z.to_nat i) !!! Z.to_nat j.

(** [a[i, j] = v], in place. *)
Definition setitem (a : list (list Z)) (i j : Z) (v : Z) : list (list Z) :=
  <[Z.to_nat i := <[Z.to_nat j := v]> (a !!! Z.to_nat i)]> a.

(** [random.choice([-1, +1], size=(n, n))]: [coin i j] tells whether the
    draw for the cell picked the second element of the list. *)
Definition choice (n : nat) (coin : nat → nat → bool) : list (list Z) :=
  (λ i, (λ j, if coin i j then 1 else -1) <$> seq 0 n) <$> seq 0 n.

End np.

(** ** The class *)

Module IsingSimulation.

(** Interaction constant for iron, in Joule. *)
Definition J : R := 6.34369e-21.

(** Boltzmann constant, in Joule per Kelvin. *)
Definition kB : R := 1.38065e-23.

Record t : Type := Build {
  size : Z;
  temperature : R;
  state : list (list Z);
  step : Z
}.

(** The exception of the constructor: numpy refuses a negative
    dimension. *)
Inductive error : Type := ValueError.

(** [__init__(self, size, temperature=300)]. *)
Definition __init__ (size : Z) (temperature : R) (coin : nat → nat → bool)
  : error + t :=
  if size <? 0 then inl ValueError
  else inr {| size := size;
              temperature := temperature;
              state := np.choice (Z.to_nat size) coin;
              step := 0 |}.

Definition default_temperature : R := 300.

(** [set_temperature(self, temp)]: [float(temp)] is [temp] itself on a
    number. *)
Definition set_temperature (self : t) (temp : R) : t :=
  {| size := size self;
     temperature := temp;
     state := state self;
     step := step self |}.

(** The integer that [energy] multiplies by [-J]. *)
Definition energy_sum (a : list (list Z)) : Z :=
  np.sum (np.mul a (np.add (np.roll_axis0 1 a) (np.roll_axis1 1 a))).

(** [energy(self)], before the product by [-J] is rounded. *)
Definition energy (self : t) : R :=
  (- J * IZR (energy_sum (state self)))%R.

(** [average_magnetism(self)]: [self.state.mean()] on a lattice that is
    not empty, before the quotient is rounded. *)
Definition average_magnetism (self : t) : R :=
  (IZR (np.sum (state self)) / INR (np.count (state self)))%R.

(** The random values consumed by one call of [update]: the pair
    returned by [randint(self.size, size=2)] and the value returned by
    [uniform(0, 1)]. *)
Record draw : Type := Draw { cell_i : Z; cell_j : Z; uniform : R }.

(** What [randint(size, size=2)] can return. *)
Definition in_range (n : Z) (d : draw) : Prop :=
  0 <= cell_i d < n ∧ 0 <= cell_j d < n.

(** The sum of the four neighbours read by [update]. *)
Definition neighbours (self : t) (i j : Z) : Z :=
  np.item (state self) ((i + 1) mod size self) j +
  np.item (state self) ((i - 1) mod size self) j +
  np.item (state self) i ((j + 1) mod size self) +
  np.item (state self) i ((j - 1) mod size self).

Definition delta_E (self : t) (i j : Z) : R :=
  (2 * J * IZR (np.item (state self) i j) * IZR (neighbours self i j))%R.

Definition log_p (self : t) (i j : Z) : R :=
  (- delta_E self i j / (temperature self * kB))%R.

(** The test [log(uniform(0, 1)) < log_p], for a temperature other than
    zero and a draw other than zero. *)
Definition accepts (self : t) (d : draw) : bool :=
  if Rlt_dec (ln (uniform d)) (log_p self (cell_i d) (cell_j d))
  then true else false.

(** [update(self)], from the point where [randint] has returned the pair
    of indices [d]; on a size that is not positive [randint] raises
    instead, which [call_update] below adds. *)
Definition update (self : t) (d : draw) : t :=
  let i := cell_i d in
  let j := cell_j d in
  {| size := size self;
     temperature := temperature self;
     state := if accepts self d
              then np.setitem (state self) i j (- np.item (state self) i j)
              else state self;
     step := step self + 1 |}.

(** The calls a client can make, and what each returns. *)
Inductive call : Type :=
| Update (d : draw)
| SetTemperature (temp : R)
| Energy
| AverageMagnetism.

Definition exec (self : t) (c : call) : t * option R :=
  match c with
  | Update d => (update self d, None)
  | SetTemperature temp => (set_temperature self temp, None)
  | Energy => (self, Some (energy self))
  | AverageMagnetism => (self, Some (average_magnetism self))
  end.

Definition run (self : t) (cs : list call) : t :=
  foldl (λ s c, (exec s c).1) self cs.

(** [k] calls of [update], one draw each. *)
Definition updates (self : t) (ds : list draw) : t :=
  foldl update self ds.

End IsingSimulation.

Import IsingSimulation.

(** ** Vocabulary of the properties *)

(** Sum of [f 0], ..., [f (n-1)]. *)
Fixpoint big_sum (n : nat) (f : nat → Z) : Z :=
  match n with
  | O => 0
  | S m => big_sum m f + f m
  end.

(** An [n] by [n] array. *)
Definition square (n : nat) (a : list (list Z)) : Prop :=
  length a = n ∧ Forall (λ row, length row = n) a.

(** Every cell is a spin. *)
Definition spins (a : list (list Z)) : Prop :=
  Forall (Forall (λ s, s = -1 ∨ s = 1)) a.

(** The edge sum of the lattice energy: every cell with its down and its
    right neighbour, indices wrapped modulo [n]. *)
Definition edge_sum (n : nat) (a : list (list Z)) : Z :=
  big_sum n (λ i, big_sum n (λ j,
    let i := Z.of_nat i in
    let j := Z.of_nat j in
    let n := Z.of_nat n in
    np.item a i j *
    (np.item a ((i + 1) mod n) j + np.item a i ((j + 1) mod n)))).

(** The same sum as the rolled arrays pair the cells: every cell with its
    up and its left neighbour. *)
Definition rolled_sum (n : nat) (a : list (list Z)) : Z :=
  big_sum n (λ i, big_sum n (λ j,
    let i := Z.of_nat i in
    let j := Z.of_nat j in
    let n := Z.of_nat n in
    np.item a i j *
    (np.item a ((i - 1) mod n) j + np.item a i ((j - 1) mod n)))).

(** The lattice built from a function of the indices. *)
Definition tabulate (n : nat) (f : nat → nat → Z) : list (list Z) :=
  (λ i, f i <$> seq 0 n) <$> seq 0 n.

Definition all_up (n : nat) : list (list Z) := tabulate n (λ _ _, 1).

Definition checkerboard (n : nat) : list (list Z) :=
  tabulate n (λ i j, if Nat.even (i + j) then 1 else -1).


(** A simulation whose lattice has the shape its [size] announces. *)
Definition shaped (self : t) : Prop :=
  0 <= size self ∧ square (Z.to_nat (size self)) (state self).

(** A call whose random draw is one that [randint] can return. *)
Definition valid_call (self : t) (c : call) : Prop :=
  match c with
  | Update d => in_range (size self) d
  | _ => True
  end.

(** The simulation with the spin of the cell [(i, j)] negated and nothing
    else changed. *)
Definition flipped (self : t) (i j : Z) : t :=
  {| size := size self;
     temperature := temperature self;
     state := np.setitem (state self) i j (- np.item (state self) i j);
     step := step self |}.

(** The coupling of a field [u] with the down and right neighbours of a
    field [v], summed over the [n] by [n] torus. *)
Definition coupling (n : nat) (u v : Z → Z → Z) : Z :=
  big_sum n (λ x, big_sum n (λ y,
    let x := Z.of_nat x in
    let y := Z.of_nat y in
    let n := Z.of_nat n in
    u x y * (v ((x + 1) mod n) y + v x ((y + 1) mod n)))).

(** The field that is [v] at the cell [(i, j)] and zero elsewhere. *)
Definition spike (i j v : Z) : Z → Z → Z :=
  λ x y, if decide (x = i ∧ y = j) then v else 0.

(** ** Sample simulations *)

(** A 2 by 2 checkerboard at room temperature. *)
Definition sample : t :=
  {| size := 2; temperature := 300;
     state := [[1; -1]; [-1; 1]]; step := 0 |}.

Definition sample_draw : draw :=
  {| cell_i := 0; cell_j := 1; uniform := 1 / 2 |}.

(** A 3 by 3 lattice with one spin up among spins down, at a negative
    temperature. *)
Definition chilled : t :=
  {| size := 3; temperature := -1;
     state := [[-1; -1; -1]; [-1; 1; -1]; [-1; -1; -1]]; step := 0 |}.

Definition centre_draw : draw :=
  {| cell_i := 1; cell_j := 1; uniform := 1 / 2 |}.

(** The lattice of one cell, which is its own neighbour four times. *)
Definition single_cell : t :=
  {| size := 1; temperature := 300; state := [[1]]; step := 0 |}.

Definition heads : nat → nat → bool := λ _ _, true.

(** ** The experiments run on the class *)

(** [sim.update()] from its first line on: [randint(self.size, size=2)]
    raises [ValueError] when the size is not positive, before anything is
    read or written; otherwise it returns the draw and the call goes on as
    [update] describes. *)
Definition call_update (sim : t) (d : draw) : error + t :=
  if size sim <=? 0 then inl ValueError else inr (update sim d).

(** A loop of calls of [sim.update()], one draw for each call; the first
    exception ends it. *)
Fixpoint call_updates (sim : t) (ds : list draw) : error + t :=
  match ds with
  | [] => inr sim
  | d :: ds =>
    match call_update sim d with
    | inl e => inl e
    | inr sim => call_updates sim ds
    end
  end.

(** [sim = IsingSimulation(size, temperature)] followed by a loop of calls
    of [sim.update()]. *)
Definition simulate (n : Z) (temp : R) (coin : nat → nat → bool)
    (ds : list draw) : error + t :=
  match __init__ n temp coin with
  | inl e => inl e
  | inr sim => call_updates sim ds
  end.

(** One round of the cooling loop: the inner loop of calls of [update], then
    [sim.set_temperature(sim.temperature - 1)]. *)
Definition anneal_round (sim : t) (ds : list draw) : t :=
  let sim := updates sim ds in
  set_temperature sim (temperature sim - 1)%R.

(** The cooling loop, one list of draws for each round. *)
Definition anneal (sim : t) (rounds : list (list draw)) : t :=
  foldl anneal_round sim rounds.

(** * The network notebook

    The second notebook works on networkx graphs.  A graph is read through
    three views: [G.nodes] (the nodes, in insertion order), [G.edges] (every
    edge once, as a pair of its ends) and [G.degree(v)] (the number of edge
    ends at [v]); [g.nodes[a]['state']] is an entry of a dictionary that a
    node may or may not have.  No transcendental function occurs here, so
    floats are rational numbers and every function computes. *)

Module nx.

(** The exceptions the notebook can meet. *)
Inductive exn : Type := KeyError | IndexError | ZeroDivisionError.

Record Graph : Type := Build {
  nodes : list nat;
  edges : list (nat * nat);
  attr : gmap nat Z
}.

(** Sum of [f] over a list. *)
Definition total {A : Type} (f : A → Z) (l : list A) : Z :=
  foldr (λ x acc, f x + acc) 0 l.

(** The number of ends of the edge [e] at the node [v]. *)
Definition ends_at (e : nat * nat) (v : nat) : Z :=
  (if decide (e.1 = v) then 1 else 0) + (if decide (e.2 = v) then 1 else 0).

(** [G.degree(v)]. *)
Definition degree (G : Graph) (v : nat) : Z :=
  total (λ e, ends_at e v) (edges G).

(** [G.neighbors(a)]. *)
Definition neighbors (G : Graph) (a : nat) : list nat :=
  flat_map (λ e : nat * nat,
    if decide (e.1 = a) then [e.2]
    else if decide (e.2 = a) then [e.1] else []) (edges G).

(** The pairs [(u, v)] with [u < v < n], as [itertools.combinations]
    lists them. *)
Definition combinations (n : nat) : list (nat * nat) :=
  flat_map (λ u, (λ v, (u, v)) <$> seq (S u) (n - S u)) (seq 0 n).

(** [erdos_renyi_graph(n, p)] for [0 < p < 1]: [present u v] tells whether
    the draw for the pair fell below [p]. *)
Definition erdos_renyi_graph (n : nat) (present : nat → nat → bool) : Graph :=
  {| nodes := seq 0 n;
     edges := filter (λ e : nat * nat, present e.1 e.2 = true) (combinations n);
     attr := ∅ |}.

(** What networkx keeps true of a graph: no node twice, every end of an
    edge a node. *)
Definition wf (G : Graph) : Prop :=
  NoDup (nodes G) ∧ Forall (λ e : nat * nat, e.1 ∈ nodes G ∧ e.2 ∈ nodes G) (edges G).

(** [avg_degree(G)]. *)
Definition avg_degree (G : Graph) : exn + Q :=
  let deg := foldl (λ deg node, deg + degree G node) 0 (nodes G) in
  if decide (length (nodes G) = O) then inl ZeroDivisionError
  else inr (inject_Z deg / inject_Z (Z.of_nat (length (nodes G))))%Q.

(** [avg_neighbor_degree(G)]. *)
Definition avg_neighbor_degree (G : Graph) : exn + Q :=
  let deg := foldl (λ deg (edge : nat * nat),
               deg + degree G edge.1 + degree G edge.2) 0 (edges G) in
  if decide (2 * length (edges G) = O)%nat then inl ZeroDivisionError
  else inr (inject_Z deg / inject_Z (Z.of_nat (2 * length (edges G))))%Q.

End nx.

(** ** The synchronous SIS model *)

Module sis.

(** Infection and recovery probabilities. *)
Definition p_i : Q := 0.5.
Definition p_r : Q := 0.5.

(** The random values of the iteration of one node: the index that
    [rd.choice] picks, reduced into the range of the list, and the value
    that [random()] returns. *)
Record draw : Type := Draw { pick : nat; coin : Q }.

(** [rd.choice(seq)]. *)
Definition choice (seq : list nat) (k : nat) : nx.exn + nat :=
  match seq with
  | [] => inl nx.IndexError
  | _ => inr (seq !!! (k mod length seq)%nat)
  end.

(** [G.nodes[a]['state'] = v]. *)
Definition set_state (G : nx.Graph) (a : nat) (v : Z) : nx.exn + nx.Graph :=
  if decide (a ∈ nx.nodes G)
  then inr {| nx.nodes := nx.nodes G; nx.edges := nx.edges G;
              nx.attr := <[a := v]> (nx.attr G) |}
  else inl nx.KeyError.

(** [initialize()]: the two random graphs on [n] nodes, the first with a
    state drawn for every node. *)
Definition initialize (n : nat) (present present' : nat → nat → bool)
    (coins : nat → Q) : nx.Graph * nx.Graph :=
  let g := nx.erdos_renyi_graph n present in
  let g := foldl (λ (g : nx.Graph) i,
             {| nx.nodes := nx.nodes g; nx.edges := nx.edges g;
                nx.attr := <[i := if Qlt_le_dec (coins i) 0.5 then 1 else 0]>
                             (nx.attr g) |}) g (nx.nodes g) in
  (g, nx.erdos_renyi_graph n present').

(** The body of the loop of [update] for the node [a]: it reads [g] and
    writes [nextg]. *)
Definition visit (g : nx.Graph) (rnd : nat → draw) (nextg : nx.Graph)
    (a : nat) : nx.exn + nx.Graph :=
  match nx.attr g !! a with
  | None => inl nx.KeyError
  | Some s =>
    if decide (s = 0) then
      match choice (nx.neighbors g a) (pick (rnd a)) with
      | inl e => inl e
      | inr b =>
        match nx.attr g !! b with
        | None => inl nx.KeyError
        | Some sb =>
          if decide (sb = 1)
          then set_state nextg a
                 (if Qlt_le_dec (coin (rnd a)) p_i then 1 else 0)
          else inr nextg
        end
      end
    else set_state nextg a (if Qlt_le_dec (coin (rnd a)) p_r then 0 else 1)
  end.

(** The loop over the nodes. *)
Fixpoint visit_all (g : nx.Graph) (rnd : nat → draw) (nextg : nx.Graph)
    (l : list nat) : nx.exn + nx.Graph :=
  match l with
  | [] => inr nextg
  | a :: l =>
    match visit g rnd nextg a with
    | inl e => inl e
    | inr nextg => visit_all g rnd nextg l
    end
  end.

(** [update()]: the loop, then [g, nextg = nextg, g]. *)
Definition update (g nextg : nx.Graph) (rnd : nat → draw)
    : nx.exn + nx.Graph * nx.Graph :=
  match visit_all g rnd nextg (nx.nodes g) with
  | inl e => inl e
  | inr nextg => inr (nextg, g)
  end.

(** What the iteration of the node [a] leaves as its next state: a drawn
    state, or nothing written. *)
Definition outcome (g : nx.Graph) (rnd : nat → draw) (a : nat) : option Z :=
  match nx.attr g !! a with
  | Some s =>
    if decide (s = 0) then
      match choice (nx.neighbors g a) (pick (rnd a)) with
      | inr b =>
        if decide (nx.attr g !! b = Some 1)
        then Some (if Qlt_le_dec (coin (rnd a)) p_i then 1 else 0)
        else None
      | inl _ => None
      end
    else Some (if Qlt_le_dec (coin (rnd a)) p_r then 0 else 1)
  | None => None
  end.

(** A susceptible node without a neighbour. *)
Definition isolated (g : nx.Graph) (a : nat) : Prop :=
  nx.attr g !! a = Some 0 ∧ nx.neighbors g a = [].

End sis.

(** A triangle with a pendant node. *)
Definition kite : nx.Graph :=
  {| nx.nodes := [0; 1; 2; 3]%nat;
     nx.edges := [(0, 1); (0, 2); (1, 2); (2, 3)]%nat;
     nx.attr := ∅ |}.

(** ** Sample graphs *)

(** Three nodes with an edge between every two of them, where only the
    node 1 starts infected. *)
Definition outbreak : nx.Graph * nx.Graph :=
  sis.initialize 3 (λ _ _, true) (λ _ _, true)
    (λ i, if Nat.eqb i 1 then 0.2 else 0.7)%Q.

(** Three nodes without any edge in [g], all susceptible. *)
Definition scattered : nx.Graph * nx.Graph :=
  sis.initialize 3 (λ _ _, false) (λ _ _, true) (λ _, 0.7%Q).

(** Draws that pick the first neighbour and fall below both
    probabilities. *)
Definition steady : nat → sis.draw :=
  λ _, {| sis.pick := 0; sis.coin := 0.2 |}.

(** A triangle. *)
Definition triangle : nx.Graph :=
  {| nx.nodes := [0; 1; 2]%nat;
     nx.edges := [(0, 1); (0, 2); (1, 2)]%nat;
     nx.attr := ∅ |}.

(** A 2 by 2 lattice of two rows of opposite spins: every cell has two
    neighbours up and two down. *)
Definition striped : t :=
  {| size := 2; temperature := 300;
     state := [[1; 1]; [-1; -1]]; step := 0 |}.

Definition corner_draw : draw :=
  {| cell_i := 0; cell_j := 0; uniform := 1 / 2 |}.

(** Three nodes with an edge between every two of them, all
    susceptible. *)
Definition healthy : nx.Graph * nx.Graph :=
  sis.initialize 3 (λ _ _, true) (λ _ _, true) (λ _, 0.7%Q).

(** ** The class on a store of arrays

    A numpy array is an object and [self.state] is a reference to it:
    [roll], [+] and [*] build their result in a new array, [sum] and [mean]
    only read, and [self.state[i,j] = v] writes into the array that
    [self.state] refers to.  Here the arrays live in a store, a simulation
    holds the address of its lattice, and every method returns the
    simulation and the store that it leaves; a method fails when it reads
    an address that holds no array. *)

Module store.

Record object : Type := Object {
  size : Z;
  temperature : R;
  state : nat;
  step : Z
}.

(** A result built in a new array. *)
Definition new_array (h : gmap nat (list (list Z))) (a : list (list Z))
  : nat * gmap nat (list (list Z)) :=
  let l := fresh (dom h) in (l, <[l := a]> h).

Definition roll_axis0 (shift : nat) (l : nat) (h : gmap nat (list (list Z)))
  : option (nat * gmap nat (list (list Z))) :=
  a ← h !! l; Some (new_array h (np.roll_axis0 shift a)).

Definition roll_axis1 (shift : nat) (l : nat) (h : gmap nat (list (list Z)))
  : option (nat * gmap nat (list (list Z))) :=
  a ← h !! l; Some (new_array h (np.roll_axis1 shift a)).

Definition add (l l' : nat) (h : gmap nat (list (list Z)))
  : option (nat * gmap nat (list (list Z))) :=
  a ← h !! l; b ← h !! l'; Some (new_array h (np.add a b)).

Definition mul (l l' : nat) (h : gmap nat (list (list Z)))
  : option (nat * gmap nat (list (list Z))) :=
  a ← h !! l; b ← h !! l'; Some (new_array h (np.mul a b)).

Definition sum (l : nat) (h : gmap nat (list (list Z))) : option Z :=
  np.sum <$> h !! l.

Definition mean (l : nat) (h : gmap nat (list (list Z))) : option R :=
  (λ a, IZR (np.sum a) / INR (np.count a))%R <$> h !! l.

(** The simulation that the class of the previous section sees when the
    lattice of [self] holds [a]. *)
Definition snapshot (self : object) (a : list (list Z)) : IsingSimulation.t :=
  {| IsingSimulation.size := size self;
     IsingSimulation.temperature := temperature self;
     IsingSimulation.state := a;
     IsingSimulation.step := step self |}.

(** [energy(self)]: the two rolled arrays, their sum and the product are
    new arrays. *)
Definition energy (self : object) (h : gmap nat (list (list Z)))
  : option (R * object * gmap nat (list (list Z))) :=
  '(r0, h) ← roll_axis0 1 (state self) h;
  '(r1, h) ← roll_axis1 1 (state self) h;
  '(s, h) ← add r0 r1 h;
  '(p, h) ← mul (state self) s h;
  k ← sum p h;
  Some ((- J * IZR k)%R, self, h).

(** [average_magnetism(self)]. *)
Definition average_magnetism (self : object) (h : gmap nat (list (list Z)))
  : option (R * object * gmap nat (list (list Z))) :=
  m ← mean (state self) h;
  Some (m, self, h).

(** [update(self)]: the flip is written into the lattice itself. *)
Definition update (self : object) (d : draw) (h : gmap nat (list (list Z)))
  : option (object * gmap nat (list (list Z))) :=
  a ← h !! state self;
  let i := cell_i d in
  let j := cell_j d in
  let h := if accepts (snapshot self a) d
           then <[state self := np.setitem a i j (- np.item a i j)]> h
           else h in
  Some ({| size := size self; temperature := temperature self;
           state := state self; step := step self + 1 |}, h).

End store.

(** A store with one lattice, and two simulations that refer to it with
    different temperatures and step counters. *)
Definition shelf : gmap nat (list (list Z)) := {[ 4%nat := [[1; -1]; [-1; 1]] ]}.

Definition warm : store.object :=
  {| store.size := 2; store.temperature := 300;
     store.state := 4; store.step := 0 |}.

Definition cold : store.object :=
  {| store.size := 2; store.temperature := 5;
     store.state := 4; store.step := 7 |}.

(** Decides that a concrete lattice has its shape and holds spins. *)
Ltac lattice_facts :=
  unfold shaped, square, spins, in_range; simpl;
  repeat first [ lia | by left | by right | done | split | constructor ].

(** ** The operations on small inputs *)

Section examples.

Example roll_three : np.roll 1 [1; 2; 3] = [3; 1; 2].
Proof. reflexivity. Qed.

Example roll_wraps_shift : np.roll 4 [1; 2; 3] = [3; 1; 2].
Proof. reflexivity. Qed.

Example roll_rows : np.roll_axis0 1 [[1; 2]; [3; 4]] = [[3; 4]; [1; 2]].
Proof. reflexivity. Qed.

Example roll_columns : np.roll_axis1 1 [[1; 2]; [3; 4]] = [[2; 1]; [4; 3]].
Proof. reflexivity. Qed.

Example setitem_cell :
  np.setitem [[1; -1]; [-1; 1]] 0 1 1 = [[1; 1]; [-1; 1]].
Proof. reflexivity. Qed.

Example choice_heads : np.choice 2 heads = [[1; 1]; [1; 1]].
Proof. reflexivity. Qed.

Example energy_sum_sample : energy_sum (state sample) = -8.
Proof. reflexivity. Qed.

Example energy_sum_chilled : energy_sum (state chilled) = 10.
Proof. reflexivity. Qed.

Example edge_sum_chilled : edge_sum 3 (state chilled) = 10.
Proof. reflexivity. Qed.

Example neighbours_chilled : neighbours chilled 1 1 = -4.
Proof. reflexivity. Qed.

Example neighbours_wrap : neighbours sample 0 1 = 4.
Proof. reflexivity. Qed.

Example init_negative_size : __init__ (-1) 300 heads = inl ValueError.
Proof. reflexivity. Qed.

Example checkerboard_two : checkerboard 2 = [[1; -1]; [-1; 1]].
Proof. reflexivity. Qed.

End examples.

(** ** Finite sums *)

Section big_sum.

Implicit Types (n : nat) (f g : nat → Z).

Lemma big_sum_S n f : big_sum (S n) f = big_sum n f + f n.
Proof. reflexivity. Qed.

Lemma big_sum_ext n f g :
  (∀ i, (i < n)%nat → f i = g i) → big_sum n f = big_sum n g.
Proof.
  induction n as [|n IH]; intros Hfg; simpl; [done|].
  rewrite IH, Hfg by (intros; try apply Hfg; lia). done.
Qed.

Lemma big_sum_head n f :
  big_sum (S n) f = f O + big_sum n (λ i, f (S i)).
Proof.
  induction n as [|n IH]; [simpl; lia|].
  change (big_sum (S (S n)) f) with (big_sum (S n) f + f (S n)).
  rewrite IH. simpl. lia.
Qed.

Lemma big_sum_add n f g :
  big_sum n (λ i, f i + g i) = big_sum n f + big_sum n g.
Proof. induction n as [|n IH]; simpl; lia. Qed.

Lemma big_sum_const n c : big_sum n (λ _, c) = Z.of_nat n * c.
Proof. induction n as [|n IH]; simpl; lia. Qed.

Lemma big_sum_bounds n f lo hi :
  (∀ i, (i < n)%nat → lo <= f i <= hi) →
  Z.of_nat n * lo <= big_sum n f <= Z.of_nat n * hi.
Proof.
  induction n as [|n IH]; intros Hf; simpl; [lia|].
  specialize (Hf n ltac:(lia)) as Hn.
  assert (Z.of_nat n * lo <= big_sum n f <= Z.of_nat n * hi)
    by (apply IH; intros; apply Hf; lia).
  lia.
Qed.

(** Reindexing by the cyclic successor. *)
Lemma big_sum_cycle n f :
  big_sum n (λ i, f ((i + 1) mod n)%nat) = big_sum n f.
Proof.
  destruct n as [|n]; [done|].
  rewrite (big_sum_head n f), big_sum_S.
  replace ((n + 1) mod S n)%nat with O.
  2:{ replace (n + 1)%nat with (S n) by lia. by rewrite Nat.Div0.mod_same. }
  rewrite Z.add_comm. f_equal.
  apply big_sum_ext; intros i Hi. f_equal.
  rewrite Nat.mod_small; lia.
Qed.

End big_sum.

(** ** The numpy operations, index by index *)

Section arrays.

Lemma sum1_app (a b : list Z) : np.sum1 (a ++ b) = np.sum1 a + np.sum1 b.
Proof. induction a as [|x a IH]; simpl; lia. Qed.

Lemma sum1_big_sum (a : list Z) :
  np.sum1 a = big_sum (length a) (λ i, a !!! i).
Proof.
  induction a as [|x a IH]; [done|].
  cbn [length]. rewrite big_sum_head. simpl. by rewrite IH.
Qed.

Lemma sum_rows (a : list (list Z)) : np.sum a = np.sum1 (np.sum1 <$> a).
Proof.
  unfold np.sum. induction a as [|r a IH]; [done|].
  rewrite fmap_cons. cbn [concat]. rewrite sum1_app, IH. done.
Qed.

Lemma square_row n (a : list (list Z)) i :
  square n a → (i < n)%nat → length (a !!! i) = n.
Proof.
  intros [Hlen Hrows] Hi.
  eapply (proj1 (Forall_lookup _ _) Hrows i).
  apply list_lookup_lookup_total_lt. lia.
Qed.

Lemma sum_big_sum n (a : list (list Z)) :
  square n a →
  np.sum a = big_sum n (λ i, big_sum n (λ j, (a !!! i) !!! j)).
Proof.
  intros Hsq. rewrite sum_rows, sum1_big_sum, length_fmap.
  rewrite (proj1 Hsq). apply big_sum_ext; intros i Hi.
  rewrite (list_lookup_total_fmap np.sum1 a i) by (rewrite (proj1 Hsq); lia).
  rewrite sum1_big_sum. by rewrite (square_row n a i).
Qed.

Lemma count_square n (a : list (list Z)) :
  square n a → np.count a = (n * n)%nat.
Proof.
  unfold np.count. intros [Hlen Hrows]. rewrite <- Hlen at 1. clear Hlen.
  induction Hrows as [|r b Hr Hrows IH]; [done|].
  cbn [concat length]. rewrite length_app, IH, Hr. lia.
Qed.


Lemma length_roll {A : Type} shift (a : list A) :
  length (np.roll shift a) = length a.
Proof.
  unfold np.roll. rewrite length_app, length_drop, length_take. lia.
Qed.

Lemma lookup_roll {A : Type} shift (a : list A) i :
  (i < length a)%nat →
  np.roll shift a !! i =
  a !! ((i + (length a - shift mod length a)) mod length a)%nat.
Proof.
  intros Hi. unfold np.roll.
  set (n := length a) in *. set (o := (shift mod n)%nat).
  assert (o < n)%nat by (apply Nat.mod_upper_bound; lia).
  destruct (decide (i < o)%nat) as [Hlt|Hge].
  - rewrite lookup_app_l by (rewrite length_drop; lia).
    rewrite lookup_drop. f_equal.
    rewrite Nat.mod_small; lia.
  - rewrite lookup_app_r by (rewrite length_drop; lia).
    rewrite length_drop. fold n.
    rewrite lookup_take_lt by lia. f_equal.
    replace (i + (n - o))%nat with ((i - o) + 1 * n)%nat by lia.
    rewrite Nat.Div0.mod_add, Nat.mod_small; lia.
Qed.

(** The cell that [roll(a, 1)] brings to position [i]. *)
Lemma roll_one_total {A : Type} `{!Inhabited A} (a : list A) (i : nat) :
  (i < length a)%nat →
  np.roll 1 a !!! i = a !!! Z.to_nat ((Z.of_nat i - 1) mod Z.of_nat (length a)).
Proof.
  intros Hi. apply list_lookup_total_correct.
  rewrite lookup_roll by done.
  assert (Hn : (length a = 1 ∨ 1 < length a)%nat) by lia.
  replace ((i + (length a - 1 mod length a)) mod length a)%nat
    with (Z.to_nat ((Z.of_nat i - 1) mod Z.of_nat (length a))).
  { apply list_lookup_lookup_total_lt.
    apply Nat2Z.inj_lt. rewrite Z2Nat.id; [|apply Z.mod_pos_bound; lia].
    apply Z.mod_pos_bound; lia. }
  destruct Hn as [Hn|Hn].
  - rewrite Hn. assert (i = O) by lia. subst i. reflexivity.
  - rewrite (Nat.mod_small 1) by lia.
    apply Nat2Z.inj. rewrite Z2Nat.id by (apply Z.mod_pos_bound; lia).
    rewrite Nat2Z.inj_mod.
    replace (Z.of_nat (i + (length a - 1))) with
      ((Z.of_nat i - 1) + 1 * Z.of_nat (length a)) by lia.
    by rewrite Z.mod_add by lia.
Qed.

Lemma lookup_total_zip_with (f : Z → Z → Z) (a b : list Z) (i : nat) :
  (i < length a)%nat → (i < length b)%nat →
  zip_with f a b !!! i = f (a !!! i) (b !!! i).
Proof.
  intros Ha Hb. apply list_lookup_total_correct.
  rewrite lookup_zip_with.
  rewrite (list_lookup_lookup_total_lt a i), (list_lookup_lookup_total_lt b i) by done.
  done.
Qed.

Lemma lookup_total_zip_with_rows (f : Z → Z → Z) (a b : list (list Z)) (i : nat) :
  (i < length a)%nat → (i < length b)%nat →
  zip_with (zip_with f) a b !!! i = zip_with f (a !!! i) (b !!! i).
Proof.
  intros Ha Hb. apply list_lookup_total_correct.
  rewrite lookup_zip_with.
  rewrite (list_lookup_lookup_total_lt a i), (list_lookup_lookup_total_lt b i) by done.
  done.
Qed.



Lemma square_zip_with (f : Z → Z → Z) n (a b : list (list Z)) :
  square n a → square n b → square n (zip_with (zip_with f) a b).
Proof.
  intros [Ha Hra] [Hb Hrb]. split.
  - rewrite length_zip_with. lia.
  - apply Forall_lookup. intros i r Hr.
    apply lookup_zip_with_Some in Hr as (x & y & -> & Hx & Hy).
    rewrite length_zip_with.
    rewrite (proj1 (Forall_lookup _ _) Hra i x Hx).
    rewrite (proj1 (Forall_lookup _ _) Hrb i y Hy). lia.
Qed.

Lemma square_roll_axis0 n shift (a : list (list Z)) :
  square n a → square n (np.roll_axis0 shift a).
Proof.
  intros [Ha Hra]. split.
  - unfold np.roll_axis0. by rewrite length_roll.
  - unfold np.roll_axis0, np.roll. apply Forall_app. split.
    + by apply Forall_drop.
    + by apply Forall_take.
Qed.

Lemma square_roll_axis1 n shift (a : list (list Z)) :
  square n a → square n (np.roll_axis1 shift a).
Proof.
  intros [Ha Hra]. split.
  - unfold np.roll_axis1. by rewrite length_fmap.
  - unfold np.roll_axis1. apply Forall_fmap.
    eapply Forall_impl; [exact Hra|]. intros r Hr. simpl.
    by rewrite length_roll.
Qed.

(** The array summed by [energy], cell by cell. *)
Lemma energy_term n (a : list (list Z)) (i j : nat) :
  square n a → (i < n)%nat → (j < n)%nat →
  (np.mul a (np.add (np.roll_axis0 1 a) (np.roll_axis1 1 a)) !!! i) !!! j =
  np.item a (Z.of_nat i) (Z.of_nat j) *
  (np.item a ((Z.of_nat i - 1) mod Z.of_nat n) (Z.of_nat j) +
   np.item a (Z.of_nat i) ((Z.of_nat j - 1) mod Z.of_nat n)).
Proof.
  intros Hsq Hi Hj.
  pose proof (square_roll_axis0 n 1 a Hsq) as Hsq0.
  pose proof (square_roll_axis1 n 1 a Hsq) as Hsq1.
  pose proof (square_zip_with Z.add n _ _ Hsq0 Hsq1) as Hsqa.
  fold (np.add (np.roll_axis0 1 a) (np.roll_axis1 1 a)) in Hsqa.
  unfold np.mul at 1.
  rewrite lookup_total_zip_with_rows
    by (rewrite ?(proj1 Hsq), ?(proj1 Hsqa); lia).
  rewrite lookup_total_zip_with
    by (rewrite ?(square_row n a i), ?(square_row n _ i Hsqa); done).
  unfold np.item. rewrite !Nat2Z.id. f_equal.
  unfold np.add.
  rewrite lookup_total_zip_with_rows
    by (rewrite ?(proj1 Hsq0), ?(proj1 Hsq1); lia).
  rewrite lookup_total_zip_with
    by (rewrite ?(square_row n _ i Hsq0), ?(square_row n _ i Hsq1); done).
  f_equal.
  - unfold np.roll_axis0.
    rewrite roll_one_total by (rewrite (proj1 Hsq); lia).
    by rewrite (proj1 Hsq).
  - unfold np.roll_axis1.
    rewrite (list_lookup_total_fmap (np.roll 1) a i)
      by (rewrite (proj1 Hsq); lia).
    rewrite roll_one_total by (rewrite (square_row n a i); done).
    by rewrite (square_row n a i).
Qed.

Lemma energy_sum_rolled n (a : list (list Z)) :
  square n a → energy_sum a = rolled_sum n a.
Proof.
  intros Hsq. unfold energy_sum, rolled_sum.
  rewrite (sum_big_sum n).
  2:{ apply square_zip_with; [done|].
      apply square_zip_with;
        [by apply square_roll_axis0 | by apply square_roll_axis1]. }
  apply big_sum_ext; intros i Hi.
  apply big_sum_ext; intros j Hj.
  by apply energy_term.
Qed.

End arrays.


(** ** Reindexing the energy *)

Section reindexing.

Lemma wrap_succ_pred (n i : Z) :
  0 <= i < n → ((i + 1) mod n - 1) mod n = i.
Proof.
  intros Hi. destruct (decide (i + 1 = n)) as [Heq|Hne].
  - rewrite Heq, Z.mod_same by lia.
    replace (0 - 1) with (i + (-1) * n) by lia.
    rewrite Z.mod_add by lia. apply Z.mod_small. lia.
  - rewrite (Z.mod_small (i + 1)) by lia.
    replace (i + 1 - 1) with i by lia. apply Z.mod_small. lia.
Qed.

(** A sum over the pairs (cell, predecessor) is the sum over the pairs
    (successor, cell). *)
Lemma big_sum_pairs (n : nat) (q : Z → Z → Z) :
  big_sum n (λ i, q (Z.of_nat i) ((Z.of_nat i - 1) mod Z.of_nat n)) =
  big_sum n (λ i, q ((Z.of_nat i + 1) mod Z.of_nat n) (Z.of_nat i)).
Proof.
  rewrite <- (big_sum_cycle n
    (λ i, q (Z.of_nat i) ((Z.of_nat i - 1) mod Z.of_nat n))).
  apply big_sum_ext; intros i Hi. cbv beta.
  rewrite Nat2Z.inj_mod, Nat2Z.inj_add. change (Z.of_nat 1) with 1.
  by rewrite wrap_succ_pred by lia.
Qed.

Lemma rolled_sum_edge_sum n (a : list (list Z)) :
  rolled_sum n a = edge_sum n a.
Proof.
  unfold rolled_sum, edge_sum. cbv zeta.
  transitivity
    (big_sum n (λ i, big_sum n (λ j,
       np.item a (Z.of_nat i) (Z.of_nat j) *
       np.item a ((Z.of_nat i - 1) mod Z.of_nat n) (Z.of_nat j))) +
     big_sum n (λ i, big_sum n (λ j,
       np.item a (Z.of_nat i) (Z.of_nat j) *
       np.item a (Z.of_nat i) ((Z.of_nat j - 1) mod Z.of_nat n)))).
  { rewrite <- big_sum_add. apply big_sum_ext; intros i _.
    rewrite <- big_sum_add. apply big_sum_ext; intros j _. lia. }
  transitivity
    (big_sum n (λ i, big_sum n (λ j,
       np.item a (Z.of_nat i) (Z.of_nat j) *
       np.item a ((Z.of_nat i + 1) mod Z.of_nat n) (Z.of_nat j))) +
     big_sum n (λ i, big_sum n (λ j,
       np.item a (Z.of_nat i) (Z.of_nat j) *
       np.item a (Z.of_nat i) ((Z.of_nat j + 1) mod Z.of_nat n)))).
  2:{ rewrite <- big_sum_add. apply big_sum_ext; intros i _.
      rewrite <- big_sum_add. apply big_sum_ext; intros j _. lia. }
  f_equal.
  - rewrite (big_sum_pairs n
      (λ x y, big_sum n (λ j,
         np.item a x (Z.of_nat j) * np.item a y (Z.of_nat j)))).
    apply big_sum_ext; intros i _.
    apply big_sum_ext; intros j _. lia.
  - apply big_sum_ext; intros i _.
    rewrite (big_sum_pairs n
      (λ x y, np.item a (Z.of_nat i) x * np.item a (Z.of_nat i) y)).
    apply big_sum_ext; intros j _. lia.
Qed.

End reindexing.

(** C1. For every lattice of size [n] by [n], and so for every lattice of
    spins, [energy] returns [-J] times the sum over all the cells of the
    spin times the sum of its down and right neighbours, indices wrapped
    modulo [n]; the rolled arrays pair every cell with its up and left
    neighbours, and the two sums agree by reindexing. *)
Theorem energy_edge_sum (self : t) (n : nat) :
  square n (state self) →
  energy_sum (state self) = rolled_sum n (state self) ∧
  rolled_sum n (state self) = edge_sum n (state self) ∧
  energy self = (- J * IZR (edge_sum n (state self)))%R.
Proof.
  intros Hsq. split; [by apply energy_sum_rolled|].
  split; [apply rolled_sum_edge_sum|].
  unfold energy. by rewrite (energy_sum_rolled n), rolled_sum_edge_sum.
Qed.

(** ** Reading and writing one cell *)

Section cells.

Implicit Types (a : list (list Z)) (i j x y v : Z).

Lemma square_lookup n a (r : nat) row :
  square n a → a !! r = Some row → length row = n.
Proof. intros [_ Hrows] Hr. exact (proj1 (Forall_lookup _ _) Hrows r row Hr). Qed.

Lemma square_setitem n a i j v : square n a → square n (np.setitem a i j v).
Proof.
  intros Hsq. destruct Hsq as [Hlen Hrows]. unfold np.setitem. split.
  - by rewrite length_insert.
  - destruct (decide (Z.to_nat i < length a)%nat) as [Hi|Hi].
    + apply Forall_insert; [done|]. rewrite length_insert.
      apply (square_row n a); [by split | lia].
    + rewrite list_insert_ge by lia. done.
Qed.

Lemma item_setitem_eq n a i j v :
  square n a → 0 <= i < Z.of_nat n → 0 <= j < Z.of_nat n →
  np.item (np.setitem a i j v) i j = v.
Proof.
  intros Hsq Hi Hj. unfold np.item, np.setitem.
  rewrite list_lookup_total_insert_eq by (rewrite (proj1 Hsq); lia).
  rewrite list_lookup_total_insert_eq; [done|].
  rewrite (square_row n a) by (done || lia). lia.
Qed.

Lemma item_setitem_ne n a i j v x y :
  square n a → 0 <= i → 0 <= j → 0 <= x → 0 <= y →
  ¬ (x = i ∧ y = j) →
  np.item (np.setitem a i j v) x y = np.item a x y.
Proof.
  intros Hsq Hi Hj Hx Hy Hne. unfold np.item, np.setitem.
  destruct (decide (x = i)) as [->|Hxi].
  - destruct (decide (Z.to_nat i < length a)%nat) as [Hlt|Hge].
    + rewrite list_lookup_total_insert_eq by done.
      rewrite list_lookup_total_insert_ne; [done|]. lia.
    + rewrite list_insert_ge by lia. done.
  - rewrite list_lookup_total_insert_ne; [done|]. lia.
Qed.

Lemma spins_item n a i j :
  square n a → spins a → 0 <= i < Z.of_nat n → 0 <= j < Z.of_nat n →
  np.item a i j = -1 ∨ np.item a i j = 1.
Proof.
  intros Hsq Hsp Hi Hj. unfold np.item.
  assert (Hrow : a !! Z.to_nat i = Some (a !!! Z.to_nat i)).
  { apply list_lookup_lookup_total_lt. rewrite (proj1 Hsq). lia. }
  pose proof (proj1 (Forall_lookup _ _) Hsp _ _ Hrow) as Hr.
  assert (Hc : (a !!! Z.to_nat i) !! Z.to_nat j =
               Some ((a !!! Z.to_nat i) !!! Z.to_nat j)).
  { apply list_lookup_lookup_total_lt.
    rewrite (square_lookup n a _ _ Hsq Hrow). lia. }
  exact (proj1 (Forall_lookup _ _) Hr _ _ Hc).
Qed.

Lemma spins_setitem n a i j v :
  square n a → spins a → 0 <= i < Z.of_nat n → (v = -1 ∨ v = 1) →
  spins (np.setitem a i j v).
Proof.
  intros Hsq Hsp Hi Hv. unfold np.setitem.
  assert (Hrow : a !! Z.to_nat i = Some (a !!! Z.to_nat i)).
  { apply list_lookup_lookup_total_lt. rewrite (proj1 Hsq). lia. }
  apply Forall_insert; [done|].
  apply Forall_insert; [|done].
  exact (proj1 (Forall_lookup _ _) Hsp _ _ Hrow).
Qed.

Lemma spins_choice n coin : spins (np.choice n coin).
Proof.
  unfold spins, np.choice. apply Forall_fmap, Forall_forall. intros i _.
  simpl. apply Forall_fmap, Forall_forall. intros j _. simpl.
  destruct (coin i j); auto.
Qed.

Lemma square_tabulate n (f : nat → nat → Z) : square n (tabulate n f).
Proof.
  unfold tabulate. split.
  - by rewrite length_fmap, length_seq.
  - apply Forall_fmap, Forall_forall. intros i _. simpl.
    by rewrite length_fmap, length_seq.
Qed.

Lemma item_tabulate n (f : nat → nat → Z) (x y : nat) :
  (x < n)%nat → (y < n)%nat →
  np.item (tabulate n f) (Z.of_nat x) (Z.of_nat y) = f x y.
Proof.
  intros Hx Hy. unfold np.item, tabulate. rewrite !Nat2Z.id.
  rewrite (list_lookup_total_fmap (λ r : nat, f r <$> seq 0 n))
    by (rewrite length_seq; lia).
  rewrite (list_lookup_total_fmap (f (seq 0 n !!! x)))
    by (rewrite length_seq; lia).
  assert (Hs : ∀ k, (k < n)%nat → seq 0 n !!! k = k).
  { intros k Hk. apply list_lookup_total_correct.
    by rewrite lookup_seq_lt by lia. }
  by rewrite !Hs by lia.
Qed.

Lemma square_choice n coin : square n (np.choice n coin).
Proof. exact (square_tabulate n (λ r c : nat, if coin r c then 1 else -1)). Qed.

End cells.

(** ** The operations and the invariants of a simulation *)

Section invariants.

Implicit Types (self : t) (d : draw) (c : call).

Lemma init_inr n temp coin self :
  __init__ n temp coin = inr self →
  0 <= n ∧
  self = {| size := n; temperature := temp;
            state := np.choice (Z.to_nat n) coin; step := 0 |}.
Proof.
  unfold __init__. destruct (n <? 0) eqn:Hn; [done|].
  intros [= <-]. split; [lia|done].
Qed.

Lemma init_shaped n temp coin self :
  __init__ n temp coin = inr self → shaped self ∧ spins (state self).
Proof.
  intros [Hn ->]%init_inr. split; [split|]; simpl.
  - done.
  - apply square_choice.
  - apply spins_choice.
Qed.

Lemma update_shaped self d : shaped self → shaped (update self d).
Proof.
  intros [Hn Hsq]. split; simpl; [done|].
  destruct (accepts self d); [by apply square_setitem|done].
Qed.

Lemma update_spins self d :
  shaped self → in_range (size self) d →
  spins (state self) → spins (state (update self d)).
Proof.
  intros [Hn Hsq] [Hi Hj] Hsp. simpl.
  destruct (accepts self d); [|done].
  apply (spins_setitem (Z.to_nat (size self))); [done|done|lia|].
  destruct (spins_item (Z.to_nat (size self)) (state self)
              (cell_i d) (cell_j d)) as [->| ->]; auto; lia.
Qed.

Lemma exec_size self c : size (exec self c).1 = size self.
Proof. by destruct c. Qed.

Lemma exec_preserves self c :
  shaped self → valid_call self c → spins (state self) →
  shaped (exec self c).1 ∧ spins (state (exec self c).1).
Proof.
  intros Hsh Hc Hsp. destruct c as [d|temp| |]; simpl in *; try done.
  split; [by apply update_shaped|by apply update_spins].
Qed.

Lemma valid_call_size self other c :
  size other = size self → valid_call self c → valid_call other c.
Proof. intros Hs. destruct c; simpl; [|done..]. by rewrite Hs. Qed.

Lemma run_preserves self cs :
  shaped self → Forall (valid_call self) cs → spins (state self) →
  shaped (run self cs) ∧ spins (state (run self cs)) ∧
  size (run self cs) = size self.
Proof.
  unfold run. revert self.
  induction cs as [|c cs IH]; intros self Hsh Hcs Hsp; [done|].
  apply Forall_cons in Hcs as [Hc Hcs]. cbn [foldl].
  destruct (exec_preserves self c Hsh Hc Hsp) as [Hsh' Hsp'].
  destruct (IH (exec self c).1) as (? & ? & Hsize); [done| |done|].
  - eapply Forall_impl; [exact Hcs|]. intros c'.
    apply valid_call_size, exec_size.
  - rewrite Hsize, exec_size. done.
Qed.

Lemma updates_snoc self ds d :
  updates self (ds ++ [d]) = update (updates self ds) d.
Proof. unfold updates. by rewrite foldl_app. Qed.

End invariants.

(** C3, as the code has it. Neither the constructor nor [set_temperature]
    looks at the sign of the temperature: a construction with a size that
    is not negative succeeds whatever the temperature is and stores it,
    and [set_temperature] stores any value and leaves the size, the
    lattice and the step counter as they were. *)
Theorem temperature_unchecked (n : Z) (temp : R) (coin : nat → nat → bool)
    (self : t) :
  0 <= n →
  (∃ made, __init__ n temp coin = inr made ∧ temperature made = temp
           ∧ size made = n ∧ step made = 0) ∧
  temperature (set_temperature self temp) = temp ∧
  size (set_temperature self temp) = size self ∧
  state (set_temperature self temp) = state self ∧
  step (set_temperature self temp) = step self.
Proof.
  intros Hn. split; [|done].
  unfold __init__. destruct (n <? 0) eqn:Hlt; [lia|]. eauto.
Qed.

(** C4. Every cell is [-1] or [+1] right after the construction, one call
    of [update] keeps it so, and so does every sequence of calls. *)
Theorem spins_invariant :
  (∀ n temp coin self,
     __init__ n temp coin = inr self → spins (state self)) ∧
  (∀ self d,
     shaped self → in_range (size self) d → spins (state self) →
     spins (state (update self d))) ∧
  (∀ self cs,
     shaped self → Forall (valid_call self) cs → spins (state self) →
     spins (state (run self cs))).
Proof.
  split; [|split].
  - intros n temp coin self Hinit. by apply (init_shaped n temp coin).
  - apply update_spins.
  - intros self cs Hsh Hcs Hsp. by apply run_preserves.
Qed.

(** C5. The constructor, which succeeds on every size that is not
    negative, sets the step counter to 0, and [k] calls of [update] add [k]
    to it, whatever the draws decide about the flips. *)
Theorem step_counter (n : Z) (temp : R) (coin : nat → nat → bool)
    (self : t) (ds : list draw) :
  (0 <= n → ∃ made, __init__ n temp coin = inr made ∧ step made = 0) ∧
  (∀ made, __init__ n temp coin = inr made → step made = 0) ∧
  (shaped self → Forall (in_range (size self)) ds →
   step (updates self ds) = step self + Z.of_nat (length ds)).
Proof.
  split; [|split].
  - intros Hn. unfold __init__. destruct (n <? 0) eqn:Hlt; [lia|].
    eexists. by split.
  - by intros made [_ ->]%init_inr.
  - intros _ _. induction ds as [|d ds IH] using rev_ind; [simpl; lia|].
    rewrite updates_snoc, length_app. simpl. lia.
Qed.

(** C7. One call of [update] leaves the size and the temperature alone,
    changes no cell other than the chosen one, and either keeps or negates
    the chosen one. *)
Theorem update_frame (self : t) (d : draw) :
  shaped self → in_range (size self) d →
  size (update self d) = size self ∧
  temperature (update self d) = temperature self ∧
  shaped (update self d) ∧
  (∀ x y, 0 <= x → 0 <= y → ¬ (x = cell_i d ∧ y = cell_j d) →
     np.item (state (update self d)) x y = np.item (state self) x y) ∧
  (np.item (state (update self d)) (cell_i d) (cell_j d) =
     np.item (state self) (cell_i d) (cell_j d) ∨
   np.item (state (update self d)) (cell_i d) (cell_j d) =
     - np.item (state self) (cell_i d) (cell_j d)).
Proof.
  intros Hsh [Hi Hj]. split; [done|]. split; [done|].
  split; [by apply update_shaped|]. destruct Hsh as [Hn Hsq]. simpl.
  destruct (accepts self d); [|by auto].
  split.
  - intros x y Hx Hy Hne.
    apply (item_setitem_ne (Z.to_nat (size self))); (done || lia).
  - right. apply (item_setitem_eq (Z.to_nat (size self))); (done || lia).
Qed.

(** ** The acceptance test *)

Section acceptance.

#[local] Open Scope R_scope.

Lemma J_pos : 0 < J.
Proof. unfold J. lra. Qed.

Lemma kB_pos : 0 < kB.
Proof. unfold kB. lra. Qed.

Lemma accepts_spec (self : t) (d : draw) :
  accepts self d = true ↔
  ln (uniform d) < log_p self (cell_i d) (cell_j d).
Proof.
  unfold accepts.
  destruct (Rlt_dec (ln (uniform d)) (log_p self (cell_i d) (cell_j d)));
    split; (done || congruence).
Qed.

Lemma ln_unit_interval (u : R) : 0 < u < 1 → ln u < 0.
Proof.
  intros [Hpos Hlt]. rewrite <- ln_1. by apply ln_increasing.
Qed.


Lemma log_p_nonneg (self : t) (i j : Z) :
  0 < temperature self → delta_E self i j <= 0 → 0 <= log_p self i j.
Proof.
  intros HT HE. unfold log_p.
  assert (0 < temperature self * kB)
    by (apply Rmult_lt_0_compat; [done|apply kB_pos]).
  apply Rmult_le_pos; [lra|]. left. by apply Rinv_0_lt_compat.
Qed.

End acceptance.


(** ** The energy change of one flip *)

Section flip.

Implicit Types (n : nat) (u v w : Z → Z → Z) (i j c : Z).

Lemma big_sum_zero n (f : nat → Z) :
  (∀ x, (x < n)%nat → f x = 0) → big_sum n f = 0.
Proof.
  intros Hf. rewrite (big_sum_ext n f (λ _, 0)) by done.
  rewrite big_sum_const. lia.
Qed.

Lemma big_sum_single n (f : nat → Z) (k : nat) :
  (k < n)%nat → (∀ x, (x < n)%nat → x ≠ k → f x = 0) →
  big_sum n f = f k.
Proof.
  induction n as [|n IH]; intros Hk Hf; [lia|].
  rewrite big_sum_S. destruct (decide (k = n)) as [->|Hne].
  - rewrite big_sum_zero; [lia|]. intros x Hx. apply Hf; lia.
  - rewrite IH by (try lia; intros; apply Hf; lia).
    rewrite (Hf n) by lia. lia.
Qed.

Lemma big_sum_spike n i j c (F : Z → Z → Z) :
  0 <= i < Z.of_nat n → 0 <= j < Z.of_nat n →
  big_sum n (λ x, big_sum n (λ y,
    spike i j c (Z.of_nat x) (Z.of_nat y) * F (Z.of_nat x) (Z.of_nat y))) =
  c * F i j.
Proof.
  intros Hi Hj. unfold spike.
  rewrite (big_sum_single n _ (Z.to_nat i)) by
    (try lia; intros x Hx Hne; apply big_sum_zero; intros y Hy;
     rewrite decide_False by lia; lia).
  rewrite (big_sum_single n _ (Z.to_nat j)) by
    (try lia; intros y Hy Hne; rewrite decide_False by lia; lia).
  rewrite !Z2Nat.id by lia. by rewrite decide_True.
Qed.

Lemma coupling_ext n u u' v v' :
  (∀ x y, 0 <= x < Z.of_nat n → 0 <= y < Z.of_nat n → u x y = u' x y) →
  (∀ x y, 0 <= x < Z.of_nat n → 0 <= y < Z.of_nat n → v x y = v' x y) →
  coupling n u v = coupling n u' v'.
Proof.
  intros Hu Hv. unfold coupling.
  apply big_sum_ext; intros x Hx. apply big_sum_ext; intros y Hy. cbv zeta.
  pose proof (Z.mod_pos_bound (Z.of_nat x + 1) (Z.of_nat n) ltac:(lia)).
  pose proof (Z.mod_pos_bound (Z.of_nat y + 1) (Z.of_nat n) ltac:(lia)).
  rewrite Hu, !Hv by lia. done.
Qed.

Lemma coupling_add_l n u u' v :
  coupling n (λ x y, u x y + u' x y) v = coupling n u v + coupling n u' v.
Proof.
  unfold coupling. rewrite <- big_sum_add. apply big_sum_ext; intros x _.
  rewrite <- big_sum_add. apply big_sum_ext; intros y _. cbv zeta. ring.
Qed.

Lemma coupling_add_r n u v v' :
  coupling n u (λ x y, v x y + v' x y) = coupling n u v + coupling n u v'.
Proof.
  unfold coupling. rewrite <- big_sum_add. apply big_sum_ext; intros x _.
  rewrite <- big_sum_add. apply big_sum_ext; intros y _. cbv zeta. ring.
Qed.

(** A spike on the left picks the down and the right neighbour. *)
Lemma coupling_spike_l n i j c v :
  0 <= i < Z.of_nat n → 0 <= j < Z.of_nat n →
  coupling n (spike i j c) v =
  c * (v ((i + 1) mod Z.of_nat n) j + v i ((j + 1) mod Z.of_nat n)).
Proof.
  intros Hi Hj. unfold coupling. cbv zeta.
  by rewrite (big_sum_spike n i j c
    (λ x y, v ((x + 1) mod Z.of_nat n) y + v x ((y + 1) mod Z.of_nat n))).
Qed.

(** A spike on the right picks the up and the left neighbour. *)
Lemma coupling_spike_r n i j c u :
  0 <= i < Z.of_nat n → 0 <= j < Z.of_nat n →
  coupling n u (spike i j c) =
  c * (u ((i - 1) mod Z.of_nat n) j + u i ((j - 1) mod Z.of_nat n)).
Proof.
  intros Hi Hj. unfold coupling. cbv zeta.
  transitivity
    (big_sum n (λ x, big_sum n (λ y,
       u (Z.of_nat x) (Z.of_nat y) *
       spike i j c ((Z.of_nat x + 1) mod Z.of_nat n) (Z.of_nat y))) +
     big_sum n (λ x, big_sum n (λ y,
       u (Z.of_nat x) (Z.of_nat y) *
       spike i j c (Z.of_nat x) ((Z.of_nat y + 1) mod Z.of_nat n)))).
  { rewrite <- big_sum_add. apply big_sum_ext; intros x _.
    rewrite <- big_sum_add. apply big_sum_ext; intros y _. ring. }
  rewrite <- (big_sum_pairs n
    (λ x' x, big_sum n (λ y,
       u x (Z.of_nat y) * spike i j c x' (Z.of_nat y)))).
  rewrite (big_sum_ext n
    (λ x, big_sum n (λ y,
       u (Z.of_nat x) (Z.of_nat y) *
       spike i j c (Z.of_nat x) ((Z.of_nat y + 1) mod Z.of_nat n)))
    (λ x, big_sum n (λ y,
       u (Z.of_nat x) ((Z.of_nat y - 1) mod Z.of_nat n) *
       spike i j c (Z.of_nat x) (Z.of_nat y)))).
  2:{ intros x _.
      by rewrite <- (big_sum_pairs n
        (λ y' y, u (Z.of_nat x) y * spike i j c (Z.of_nat x) y')). }
  rewrite (big_sum_ext n _ (λ x, big_sum n (λ y,
    spike i j c (Z.of_nat x) (Z.of_nat y) *
    u ((Z.of_nat x - 1) mod Z.of_nat n) (Z.of_nat y)))).
  2:{ intros x _. apply big_sum_ext; intros y _. ring. }
  rewrite (big_sum_spike n i j c (λ x y, u ((x - 1) mod Z.of_nat n) y))
    by done.
  rewrite (big_sum_ext n _ (λ x, big_sum n (λ y,
    spike i j c (Z.of_nat x) (Z.of_nat y) *
    u (Z.of_nat x) ((Z.of_nat y - 1) mod Z.of_nat n)))).
  2:{ intros x _. apply big_sum_ext; intros y _. ring. }
  rewrite (big_sum_spike n i j c (λ x y, u x ((y - 1) mod Z.of_nat n)))
    by done.
  ring.
Qed.

Lemma wrap_succ_ne (n i : Z) : 2 <= n → 0 <= i < n → (i + 1) mod n ≠ i.
Proof.
  intros Hn Hi. destruct (decide (i + 1 = n)) as [Heq|Hne].
  - rewrite Heq, Z.mod_same by lia. lia.
  - rewrite Z.mod_small by lia. lia.
Qed.

Lemma edge_sum_coupling n (a : list (list Z)) :
  edge_sum n a = coupling n (np.item a) (np.item a).
Proof. reflexivity. Qed.

(** Negating one cell of a lattice of side at least 2 changes the edge sum
    by minus twice the spin times its four neighbours. *)
Lemma edge_sum_setitem n (a : list (list Z)) i j :
  square n a → (2 <= n)%nat → 0 <= i < Z.of_nat n → 0 <= j < Z.of_nat n →
  edge_sum n (np.setitem a i j (- np.item a i j)) =
  edge_sum n a
  - 2 * np.item a i j *
    (np.item a ((i + 1) mod Z.of_nat n) j +
     np.item a ((i - 1) mod Z.of_nat n) j +
     np.item a i ((j + 1) mod Z.of_nat n) +
     np.item a i ((j - 1) mod Z.of_nat n)).
Proof.
  intros Hsq Hn Hi Hj. rewrite !edge_sum_coupling.
  set (s := np.item a i j). set (d := spike i j (- 2 * s)).
  assert (Hcell : ∀ x y, 0 <= x < Z.of_nat n → 0 <= y < Z.of_nat n →
            np.item (np.setitem a i j (- s)) x y = np.item a x y + d x y).
  { intros x y Hx Hy. unfold d, spike.
    destruct (decide (x = i ∧ y = j)) as [[-> ->]|Hne].
    - rewrite (item_setitem_eq n) by done. fold s. lia.
    - rewrite (item_setitem_ne n) by (done || lia). lia. }
  rewrite (coupling_ext n _ (λ x y, np.item a x y + d x y)
             _ (λ x y, np.item a x y + d x y)) by done.
  rewrite coupling_add_l, !coupling_add_r.
  unfold d at 1 2 3.
  rewrite coupling_spike_l, coupling_spike_r by done.
  rewrite (coupling_spike_l n i j (- 2 * s) d) by done.
  unfold d, spike.
  pose proof (wrap_succ_ne (Z.of_nat n) i ltac:(lia) Hi) as Hwi.
  pose proof (wrap_succ_ne (Z.of_nat n) j ltac:(lia) Hj) as Hwj.
  rewrite !decide_False by tauto.
  fold s. ring.
Qed.

End flip.

(** On a lattice of side at least 2, negating the spin of one cell moves
    the integer that [energy] multiplies by [-J] by minus twice the spin
    times the sum of the four neighbours that [update] reads. *)
Lemma energy_sum_flipped (self : t) (i j : Z) :
  shaped self → 2 <= size self → 0 <= i < size self → 0 <= j < size self →
  energy_sum (state (flipped self i j)) =
  energy_sum (state self) - 2 * np.item (state self) i j * neighbours self i j.
Proof.
  intros [Hn Hsq] Hn2 Hi Hj.
  set (n := Z.to_nat (size self)) in *.
  assert (Hsize : Z.of_nat n = size self) by (unfold n; lia).
  unfold flipped. cbn [state].
  rewrite (energy_sum_rolled n) by by apply square_setitem.
  rewrite (energy_sum_rolled n (state self)) by done.
  rewrite !rolled_sum_edge_sum.
  rewrite (edge_sum_setitem n) by (done || lia).
  unfold neighbours. by rewrite Hsize.
Qed.

(** ** Two particular lattices *)

Section lattices.

Lemma wrap_succ_nat (n x : nat) :
  Z.of_nat ((x + 1) mod n)%nat = (Z.of_nat x + 1) mod Z.of_nat n.
Proof. rewrite Nat2Z.inj_mod. f_equal. lia. Qed.

Lemma even_wrap_succ (n x : nat) :
  Nat.even n = true → (x < n)%nat →
  Nat.even ((x + 1) mod n) = negb (Nat.even x).
Proof.
  intros Hn Hx. destruct (decide (x + 1 = n)%nat) as [Heq|Hne].
  - rewrite Heq, Nat.Div0.mod_same. rewrite <- Heq in Hn.
    rewrite Nat.add_1_r, Nat.even_succ, <- Nat.negb_even in Hn.
    by rewrite Hn.
  - rewrite Nat.mod_small by lia.
    by rewrite Nat.add_1_r, Nat.even_succ, <- Nat.negb_even.
Qed.

Lemma edge_sum_all_up (n : nat) :
  edge_sum n (all_up n) = 2 * (Z.of_nat n * Z.of_nat n).
Proof.
  unfold edge_sum, all_up.
  rewrite (big_sum_ext n _ (λ _, Z.of_nat n * 2)).
  { rewrite big_sum_const. lia. }
  intros x Hx. rewrite <- big_sum_const.
  apply big_sum_ext; intros y Hy. cbv zeta.
  assert (Hx' : ((x + 1) mod n < n)%nat) by (apply Nat.mod_upper_bound; lia).
  assert (Hy' : ((y + 1) mod n < n)%nat) by (apply Nat.mod_upper_bound; lia).
  rewrite <- !wrap_succ_nat. by rewrite !item_tabulate by done.
Qed.

Lemma edge_sum_checkerboard (n : nat) :
  Nat.even n = true →
  edge_sum n (checkerboard n) = - 2 * (Z.of_nat n * Z.of_nat n).
Proof.
  intros Hn. unfold edge_sum, checkerboard.
  rewrite (big_sum_ext n _ (λ _, Z.of_nat n * - 2)).
  { rewrite big_sum_const. lia. }
  intros x Hx. rewrite <- big_sum_const.
  apply big_sum_ext; intros y Hy. cbv zeta.
  assert (Hx' : ((x + 1) mod n < n)%nat) by (apply Nat.mod_upper_bound; lia).
  assert (Hy' : ((y + 1) mod n < n)%nat) by (apply Nat.mod_upper_bound; lia).
  rewrite <- !wrap_succ_nat. rewrite !item_tabulate by done.
  rewrite !Nat.even_add, !even_wrap_succ by done.
  by destruct (Nat.even x), (Nat.even y).
Qed.

End lattices.

(** C8. On the lattice of side [n] whose cells are all [+1] the energy is
    [- J * 2 * n^2]; on the checkerboard of even side [n] it is
    [J * 2 * n^2]. *)
Theorem energy_extremes (self : t) (n : nat) :
  (state self = all_up n → energy self = (- J * 2 * INR n ^ 2)%R) ∧
  (Nat.even n = true → state self = checkerboard n →
   energy self = (J * 2 * INR n ^ 2)%R).
Proof.
  split.
  - intros Hst. unfold energy. rewrite Hst.
    rewrite (energy_sum_rolled n) by apply square_tabulate.
    rewrite rolled_sum_edge_sum, edge_sum_all_up.
    rewrite !mult_IZR, <- INR_IZR_INZ. simpl. ring.
  - intros Hn Hst. unfold energy. rewrite Hst.
    rewrite (energy_sum_rolled n) by apply square_tabulate.
    rewrite rolled_sum_edge_sum, edge_sum_checkerboard by done.
    rewrite !mult_IZR, <- INR_IZR_INZ. simpl. ring.
Qed.

(** ** The magnetism *)

Section magnetism.

Lemma sum_bounds (n : nat) (a : list (list Z)) :
  square n a → spins a →
  - (Z.of_nat n * Z.of_nat n) <= np.sum a <= Z.of_nat n * Z.of_nat n.
Proof.
  intros Hsq Hsp. rewrite (sum_big_sum n) by done.
  assert (H : Z.of_nat n * (Z.of_nat n * -1) <=
              big_sum n (λ i, big_sum n (λ j, (a !!! i) !!! j)) <=
              Z.of_nat n * (Z.of_nat n * 1)); [|lia].
  apply big_sum_bounds; intros x Hx.
  apply big_sum_bounds; intros y Hy.
  destruct (spins_item n a (Z.of_nat x) (Z.of_nat y)) as [H|H];
    try (done || lia); unfold np.item in H; rewrite !Nat2Z.id in H; lia.
Qed.

End magnetism.

(** C9. On a lattice of spins of side [n] at least 1, [average_magnetism]
    is the sum of all the cells divided by their number, and lies between
    [-1] and [1]. *)
Theorem average_magnetism_mean (self : t) (n : nat) :
  square n (state self) → (0 < n)%nat → spins (state self) →
  average_magnetism self =
    (IZR (big_sum n (λ x, big_sum n (λ y,
            np.item (state self) (Z.of_nat x) (Z.of_nat y)))) /
     INR (n * n))%R ∧
  (-1 <= average_magnetism self <= 1)%R.
Proof.
  intros Hsq Hn Hsp. unfold average_magnetism.
  rewrite (count_square n) by done. split.
  - rewrite (sum_big_sum n) by done. do 2 f_equal.
    apply big_sum_ext; intros x _. apply big_sum_ext; intros y _.
    unfold np.item. by rewrite !Nat2Z.id.
  - pose proof (sum_bounds n (state self) Hsq Hsp) as [Hlo Hhi].
    assert (HD : (0 < INR (n * n))%R) by (apply lt_0_INR; nia).
    apply IZR_le in Hlo, Hhi.
    rewrite opp_IZR in Hlo. rewrite <- Nat2Z.inj_mul, <- INR_IZR_INZ in Hlo, Hhi.
    split; apply (Rmult_le_reg_r (INR (n * n))); try done;
      unfold Rdiv; rewrite Rmult_assoc, Rinv_l by lra; lra.
Qed.

(** ** Where the code departs from the claims *)

(** C3 fails: a construction at temperature [-1] succeeds, and
    [set_temperature] stores the value [0]. *)
Lemma temperature_unchecked_counterexample :
  (-1 <= 0)%R ∧
  __init__ 2 (-1) heads =
    inr {| size := 2; temperature := -1;
           state := [[1; 1]; [1; 1]]; step := 0 |} ∧
  set_temperature sample 0 =
    {| size := 2; temperature := 0;
       state := [[1; -1]; [-1; 1]]; step := 0 |} ∧
  temperature (set_temperature sample 0) ≠ temperature sample.
Proof.
  split; [lra|]. split; [done|]. split; [done|]. simpl. lra.
Qed.

(** C6. On every lattice of one cell the cell is its own neighbour four
    times: [update] computes an energy change of [8 J], whereas [energy]
    returns the same value before and after the flip. *)
Theorem delta_E_single_cell (self : t) :
  size self = 1 → square 1 (state self) → spins (state self) →
  delta_E self 0 0 = (8 * J)%R ∧
  energy (flipped self 0 0) = energy self ∧
  delta_E self 0 0 ≠ (energy (flipped self 0 0) - energy self)%R.
Proof.
  intros Hsize [Hlen Hrows] Hsp.
  destruct (state self) as [|row [|row' rows]] eqn:Hst; try done.
  apply Forall_inv in Hrows, Hsp.
  destruct row as [|s [|s' row]]; try done.
  apply Forall_inv in Hsp.
  assert (HE : delta_E self 0 0 = (8 * J)%R).
  { unfold delta_E, neighbours. rewrite Hsize, Hst.
    destruct Hsp as [-> | ->].
    - change (2 * J * IZR (-1) * IZR (-4) = 8 * J)%R. lra.
    - change (2 * J * IZR 1 * IZR 4 = 8 * J)%R. lra. }
  assert (HD : energy (flipped self 0 0) = energy self).
  { unfold energy, flipped. cbn [state]. rewrite Hst.
    by destruct Hsp as [-> | ->]. }
  split; [done|]. split; [done|].
  rewrite HE, HD. pose proof J_pos. lra.
Qed.

(** ** The observables on the store *)

Section store_frame.

Implicit Types (h : gmap nat (list (list Z))) (a b : list (list Z))
  (self : store.object).

Lemma new_array_fresh h a : h !! (store.new_array h a).1 = None.
Proof. unfold store.new_array. cbn [fst]. apply not_elem_of_dom, is_fresh. Qed.

Lemma new_array_subseteq h a : h ⊆ (store.new_array h a).2.
Proof.
  unfold store.new_array. cbn [snd]. apply insert_subseteq.
  apply (new_array_fresh h a).
Qed.

Lemma new_array_lookup h a :
  (store.new_array h a).2 !! (store.new_array h a).1 = Some a.
Proof. unfold store.new_array. cbn [fst snd]. apply lookup_insert_eq. Qed.

(** [energy] runs on every store that holds the lattice, returns what the
    class computes from the lattice, and leaves every array of the store
    as it was. *)
Lemma store_energy self h a :
  h !! store.state self = Some a →
  ∃ h', store.energy self h =
          Some (energy (store.snapshot self a), self, h') ∧ h ⊆ h'.
Proof.
  intros Ha. unfold store.energy.
  unfold store.roll_axis0. rewrite Ha. cbn [mbind option_bind].
  pose proof (new_array_subseteq h (np.roll_axis0 1 a)) as H0.
  pose proof (new_array_lookup h (np.roll_axis0 1 a)) as L0.
  destruct (store.new_array h (np.roll_axis0 1 a)) as [r0 h0].
  cbn [fst snd] in H0, L0.
  pose proof (lookup_weaken _ _ _ _ Ha H0) as Ha0.
  unfold store.roll_axis1. rewrite Ha0. cbn [mbind option_bind].
  pose proof (new_array_subseteq h0 (np.roll_axis1 1 a)) as H1.
  pose proof (new_array_lookup h0 (np.roll_axis1 1 a)) as L1.
  destruct (store.new_array h0 (np.roll_axis1 1 a)) as [r1 h1].
  cbn [fst snd] in H1, L1.
  pose proof (lookup_weaken _ _ _ _ Ha0 H1) as Ha1.
  pose proof (lookup_weaken _ _ _ _ L0 H1) as L01.
  unfold store.add. rewrite L01, L1. cbn [mbind option_bind].
  set (sa := np.add (np.roll_axis0 1 a) (np.roll_axis1 1 a)).
  pose proof (new_array_subseteq h1 sa) as H2.
  pose proof (new_array_lookup h1 sa) as L2.
  destruct (store.new_array h1 sa) as [s h2].
  cbn [fst snd] in H2, L2.
  pose proof (lookup_weaken _ _ _ _ Ha1 H2) as Ha2.
  unfold store.mul. rewrite Ha2, L2. cbn [mbind option_bind].
  pose proof (new_array_subseteq h2 (np.mul a sa)) as H3.
  pose proof (new_array_lookup h2 (np.mul a sa)) as L3.
  destruct (store.new_array h2 (np.mul a sa)) as [p h3].
  cbn [fst snd] in H3, L3.
  unfold store.sum. rewrite L3. cbn [fmap option_fmap option_map mbind option_bind].
  exists h3. split; [done|].
  by repeat (etrans; [eassumption|]).
Qed.

Lemma store_average_magnetism self h a :
  h !! store.state self = Some a →
  store.average_magnetism self h =
    Some (average_magnetism (store.snapshot self a), self, h).
Proof.
  intros Ha. unfold store.average_magnetism, store.mean. by rewrite Ha.
Qed.

(** [update] on the store is [update] of the class, written in place. *)
Lemma store_update self d h a :
  h !! store.state self = Some a →
  ∃ self' h', store.update self d h = Some (self', h') ∧
    store.state self' = store.state self ∧
    ∃ a', h' !! store.state self = Some a' ∧
          store.snapshot self' a' = update (store.snapshot self a) d.
Proof.
  intros Ha. unfold store.update. rewrite Ha. cbn [mbind option_bind].
  eexists _, _. split; [done|]. split; [done|].
  unfold update. cbn [state store.snapshot].
  destruct (accepts (store.snapshot self a) d).
  - eexists. split; [apply lookup_insert_eq|done].
  - eexists. split; [exact Ha|done].
Qed.

End store_frame.

(** C10. [energy] and [average_magnetism] return values that depend on the
    contents of the lattice alone: two simulations whose lattices hold the
    same cells get the same results whatever their temperatures, their step
    counters and the rest of their stores.  Neither call changes the
    simulation, and neither changes an array of the store: [energy] only
    adds the arrays it builds, [average_magnetism] leaves the store as it
    is. *)
Theorem observables_read_only (self other : store.object)
    (h k : gmap nat (list (list Z))) (a : list (list Z)) :
  h !! store.state self = Some a → k !! store.state other = Some a →
  ∃ e m h' k',
    store.energy self h = Some (e, self, h') ∧
    store.energy other k = Some (e, other, k') ∧
    store.average_magnetism self h = Some (m, self, h) ∧
    store.average_magnetism other k = Some (m, other, k) ∧
    h ⊆ h' ∧ k ⊆ k' ∧
    h' !! store.state self = Some a ∧ k' !! store.state other = Some a ∧
    e = energy (store.snapshot self a) ∧
    m = average_magnetism (store.snapshot self a).
Proof.
  intros Ha Hb.
  destruct (store_energy self h a Ha) as (h' & He & Hsub).
  destruct (store_energy other k a Hb) as (k' & He' & Hsub').
  exists (energy (store.snapshot self a)),
         (average_magnetism (store.snapshot self a)), h', k'.
  split; [done|]. split; [done|].
  split; [by apply store_average_magnetism|].
  split; [by rewrite (store_average_magnetism other k a)|].
  split; [done|]. split; [done|].
  split; [by apply (lookup_weaken h)|].
  split; [by apply (lookup_weaken k)|]. done.
Qed.

(** ** The theorems at a concrete simulation *)

Lemma energy_edge_sum_witness :
  square 2 (state sample) ∧ energy sample = (J * 8)%R.
Proof.
  assert (Hsq : square 2 (state sample)) by lattice_facts.
  split; [exact Hsq|].
  destruct (energy_edge_sum sample 2 Hsq) as (_ & _ & ->).
  change (edge_sum 2 (state sample)) with (-8). lra.
Defined.


Lemma temperature_unchecked_witness :
  0 <= 2 ∧ temperature (set_temperature sample (-1)) = (-1)%R.
Proof.
  assert (Hn : 0 <= 2) by lia.
  split; [exact Hn|].
  exact (proj1 (proj2 (temperature_unchecked 2 (-1) heads sample Hn))).
Defined.

Lemma spins_invariant_witness :
  spins (state (run sample [Update sample_draw; SetTemperature 0; Energy;
                            Update sample_draw; AverageMagnetism])).
Proof.
  apply (proj2 (proj2 spins_invariant)).
  - lattice_facts.
  - lattice_facts.
  - lattice_facts.
Defined.

Lemma step_counter_witness :
  (∃ made, __init__ 2 300 heads = inr made ∧ step made = 0) ∧
  step (updates sample [sample_draw; sample_draw; sample_draw]) = 3.
Proof.
  destruct (step_counter 2 300 heads sample
              [sample_draw; sample_draw; sample_draw])
    as (Hmade & _ & Hsteps).
  split.
  - apply Hmade. lia.
  - apply Hsteps; lattice_facts.
Defined.

Lemma delta_E_single_cell_witness :
  delta_E single_cell 0 0 = (8 * J)%R ∧
  energy (flipped single_cell 0 0) = energy single_cell.
Proof.
  destruct (delta_E_single_cell single_cell) as (HE & HD & _);
    [lattice_facts..|].
  split; [exact HE|exact HD].
Defined.

Lemma update_frame_witness :
  np.item (state (update sample sample_draw)) 0 0 =
  np.item (state sample) 0 0.
Proof.
  destruct (update_frame sample sample_draw
              ltac:(lattice_facts) ltac:(lattice_facts))
    as (_ & _ & _ & Hothers & _).
  apply Hothers; simpl; lia.
Defined.

Lemma energy_extremes_witness :
  Nat.even 2 = true ∧ state sample = checkerboard 2 ∧
  energy sample = (J * 2 * INR 2 ^ 2)%R.
Proof.
  split; [reflexivity|]. split; [reflexivity|].
  apply (proj2 (energy_extremes sample 2)); reflexivity.
Defined.

Lemma average_magnetism_mean_witness :
  (-1 <= average_magnetism sample <= 1)%R.
Proof.
  apply (average_magnetism_mean sample 2).
  - lattice_facts.
  - lia.
  - lattice_facts.
Defined.

Lemma observables_read_only_witness :
  ∃ e m h' k',
    store.energy warm shelf = Some (e, warm, h') ∧
    store.energy cold shelf = Some (e, cold, k') ∧
    store.average_magnetism warm shelf = Some (m, warm, shelf) ∧
    store.average_magnetism cold shelf = Some (m, cold, shelf) ∧
    shelf ⊆ h' ∧ shelf ⊆ k'.
Proof.
  assert (Ha : shelf !! store.state warm = Some [[1; -1]; [-1; 1]])
    by reflexivity.
  assert (Hb : shelf !! store.state cold = Some [[1; -1]; [-1; 1]])
    by reflexivity.
  destruct (observables_read_only warm cold shelf shelf _ Ha Hb)
    as (e & m & h' & k' & H1 & H2 & H3 & H4 & H5 & H6 & _).
  exists e, m, h', k'. by repeat split.
Defined.

(** ** Further properties of the class *)

Section bounds.

Implicit Types (self : t) (d : draw) (a : list (list Z)).

Lemma wrap_range (n : nat) (i : Z) :
  (0 < n)%nat → 0 <= i mod Z.of_nat n < Z.of_nat n.
Proof. intros Hn. apply Z.mod_pos_bound. lia. Qed.

Lemma edge_sum_bounds n a :
  square n a → spins a →
  - (2 * (Z.of_nat n * Z.of_nat n)) <= edge_sum n a
    <= 2 * (Z.of_nat n * Z.of_nat n).
Proof.
  intros Hsq Hsp.
  assert (H : Z.of_nat n * (Z.of_nat n * -2) <= edge_sum n a
              <= Z.of_nat n * (Z.of_nat n * 2)); [|lia].
  unfold edge_sum. apply big_sum_bounds; intros x Hx.
  apply big_sum_bounds; intros y Hy. cbv zeta.
  pose proof (wrap_range n (Z.of_nat x + 1) ltac:(lia)).
  pose proof (wrap_range n (Z.of_nat y + 1) ltac:(lia)).
  destruct (spins_item n a (Z.of_nat x) (Z.of_nat y)) as [-> | ->];
    try (done || lia);
  destruct (spins_item n a ((Z.of_nat x + 1) mod Z.of_nat n) (Z.of_nat y))
    as [-> | ->]; try (done || lia);
  destruct (spins_item n a (Z.of_nat x) ((Z.of_nat y + 1) mod Z.of_nat n))
    as [-> | ->]; try (done || lia).
Qed.

Lemma neighbours_values self i j :
  shaped self → spins (state self) →
  0 <= i < size self → 0 <= j < size self →
  ∃ k, -2 <= k <= 2 ∧ neighbours self i j = 2 * k.
Proof.
  intros [Hn Hsq] Hsp Hi Hj. unfold neighbours.
  set (n := Z.to_nat (size self)) in *.
  assert (Hsize : Z.of_nat n = size self) by (unfold n; lia).
  rewrite <- Hsize in *.
  pose proof (wrap_range n (i + 1) ltac:(lia)).
  pose proof (wrap_range n (i - 1) ltac:(lia)).
  pose proof (wrap_range n (j + 1) ltac:(lia)).
  pose proof (wrap_range n (j - 1) ltac:(lia)).
  destruct (spins_item n (state self) ((i + 1) mod Z.of_nat n) j)
    as [-> | ->]; try (done || lia);
  destruct (spins_item n (state self) ((i - 1) mod Z.of_nat n) j)
    as [-> | ->]; try (done || lia);
  destruct (spins_item n (state self) i ((j + 1) mod Z.of_nat n))
    as [-> | ->]; try (done || lia);
  destruct (spins_item n (state self) i ((j - 1) mod Z.of_nat n))
    as [-> | ->]; try (done || lia);
  first [ by exists (-2) | by exists (-1) | by exists 0
        | by exists 1 | by exists 2 ].
Qed.

End bounds.

(** X1. On a lattice of spins of side [n] the energy lies between
    [- 2 J n^2] and [2 J n^2], the values it takes on the aligned lattice
    and on the even checkerboard. *)
Theorem energy_bounds (self : t) (n : nat) :
  square n (state self) → spins (state self) →
  (- (2 * J * INR n ^ 2) <= energy self <= 2 * J * INR n ^ 2)%R.
Proof.
  intros Hsq Hsp. unfold energy.
  rewrite (energy_sum_rolled n), rolled_sum_edge_sum by done.
  destruct (edge_sum_bounds n (state self) Hsq Hsp) as [Hlo Hhi].
  apply IZR_le in Hlo, Hhi.
  rewrite opp_IZR in Hlo.
  rewrite !mult_IZR, <- INR_IZR_INZ in Hlo.
  rewrite !mult_IZR, <- INR_IZR_INZ in Hhi.
  pose proof J_pos. simpl. nra.
Qed.

(** X2. On a lattice of spins the energy change computed by [update] is
    one of [-8 J], [-4 J], [0], [4 J], [8 J]. *)
Theorem delta_E_values (self : t) (i j : Z) :
  shaped self → spins (state self) →
  0 <= i < size self → 0 <= j < size self →
  ∃ k : Z, -2 <= k <= 2 ∧ delta_E self i j = (4 * J * IZR k)%R.
Proof.
  intros Hsh Hsp Hi Hj.
  destruct (neighbours_values self i j Hsh Hsp Hi Hj) as (k & Hk & Hnb).
  unfold delta_E. rewrite Hnb.
  destruct Hsh as [Hn Hsq].
  destruct (spins_item (Z.to_nat (size self)) (state self) i j)
    as [-> | ->]; try (done || lia).
  - exists (- k). split; [lia|]. rewrite mult_IZR, opp_IZR. lra.
  - exists k. split; [lia|]. rewrite mult_IZR. lra.
Qed.

Section flips.

Implicit Types (self : t) (d : draw) (a : list (list Z)) (i j v : Z).

Lemma setitem_setitem n a i j v w :
  square n a → 0 <= i < Z.of_nat n →
  np.setitem (np.setitem a i j v) i j w = np.setitem a i j w.
Proof.
  intros Hsq Hi. unfold np.setitem.
  rewrite list_lookup_total_insert_eq by (rewrite (proj1 Hsq); lia).
  by rewrite list_insert_insert_eq, list_insert_insert_eq.
Qed.

Lemma setitem_item n a i j :
  square n a → 0 <= i < Z.of_nat n → 0 <= j < Z.of_nat n →
  np.setitem a i j (np.item a i j) = a.
Proof.
  intros Hsq Hi Hj. unfold np.setitem, np.item.
  assert (Hrow : a !! Z.to_nat i = Some (a !!! Z.to_nat i)).
  { apply list_lookup_lookup_total_lt. rewrite (proj1 Hsq). lia. }
  apply list_insert_id. rewrite Hrow. f_equal. symmetry.
  apply list_insert_id, list_lookup_lookup_total_lt.
  rewrite (square_lookup n a _ _ Hsq Hrow). lia.
Qed.

(** Writing one cell moves the sum of the lattice by the difference of the
    two values. *)
Lemma sum_setitem n a i j v :
  square n a → 0 <= i < Z.of_nat n → 0 <= j < Z.of_nat n →
  np.sum (np.setitem a i j v) = np.sum a + (v - np.item a i j).
Proof.
  intros Hsq Hi Hj.
  rewrite !(sum_big_sum n) by (done || by apply square_setitem).
  rewrite <- (Z.mul_1_r (v - np.item a i j)).
  rewrite <- (big_sum_spike n i j (v - np.item a i j) (λ _ _, 1)) by done.
  rewrite <- big_sum_add. apply big_sum_ext; intros x Hx.
  rewrite <- big_sum_add. apply big_sum_ext; intros y Hy.
  replace ((np.setitem a i j v !!! x) !!! y)
    with (np.item (np.setitem a i j v) (Z.of_nat x) (Z.of_nat y))
    by (unfold np.item; by rewrite !Nat2Z.id).
  replace ((a !!! x) !!! y) with (np.item a (Z.of_nat x) (Z.of_nat y))
    by (unfold np.item; by rewrite !Nat2Z.id).
  unfold spike. destruct (decide (Z.of_nat x = i ∧ Z.of_nat y = j))
    as [[<- <-]|Hne].
  - rewrite (item_setitem_eq n) by (done || lia). lia.
  - rewrite (item_setitem_ne n) by (done || lia). lia.
Qed.

End flips.

(** X3. Two accepted flips of the same cell, one after the other, give the
    lattice back; the step counter has moved by 2. *)
Theorem update_twice_restores (self : t) (d d' : draw) :
  shaped self → in_range (size self) d →
  cell_i d' = cell_i d → cell_j d' = cell_j d →
  accepts self d = true → accepts (update self d) d' = true →
  state (update (update self d) d') = state self ∧
  step (update (update self d) d') = step self + 2.
Proof.
  intros [Hn Hsq] [Hi Hj] Hi' Hj' Hacc Hacc'.
  split; [|simpl; lia].
  set (n := Z.to_nat (size self)) in *.
  unfold update at 1. cbn [state]. rewrite Hacc', Hi', Hj'.
  unfold update. cbn [state]. rewrite Hacc.
  rewrite (item_setitem_eq n), (setitem_setitem n) by (done || lia).
  rewrite Z.opp_involutive. apply (setitem_item n); (done || lia).
Qed.

(** X4. One call of [update] keeps the number of cells and leaves the sum
    of the spins, the integer that [average_magnetism] divides by the
    number of cells, as it was when the flip is rejected; when the flip is
    accepted it lowers that sum by twice the chosen spin. *)
Theorem update_total_spin (self : t) (d : draw) :
  shaped self → in_range (size self) d →
  np.sum (state (update self d)) =
    np.sum (state self) -
    (if accepts self d
     then 2 * np.item (state self) (cell_i d) (cell_j d) else 0) ∧
  np.count (state (update self d)) = np.count (state self).
Proof.
  intros [Hn Hsq] [Hi Hj]. unfold update. cbn [state].
  set (n := Z.to_nat (size self)) in *.
  destruct (accepts self d); [|split; [lia|done]].
  split.
  - rewrite (sum_setitem n) by (done || lia). lia.
  - rewrite (count_square n) by by apply square_setitem.
    by rewrite (count_square n).
Qed.

(** X5. The constructor raises [ValueError] exactly on a negative size;
    otherwise it returns a [size] by [size] lattice whose cell [(x, y)] is
    [+1] or [-1] as the coin of the cell fell, with the step counter at 0. *)
Theorem init_result (n : Z) (temp : R) (coin : nat → nat → bool) :
  (__init__ n temp coin = inl ValueError ↔ n < 0) ∧
  (0 <= n →
   ∃ made, __init__ n temp coin = inr made ∧ shaped made ∧
     size made = n ∧ step made = 0 ∧
     np.count (state made) = (Z.to_nat n * Z.to_nat n)%nat ∧
     ∀ x y : nat, Z.of_nat x < n → Z.of_nat y < n →
       np.item (state made) (Z.of_nat x) (Z.of_nat y) =
       if coin x y then 1 else -1).
Proof.
  unfold __init__. destruct (n <? 0) eqn:Hlt.
  - split; [split; [lia|done]|lia].
  - split; [split; [done|lia]|]. intros Hn. eexists. split; [done|].
    split; [split; [done|apply square_choice]|].
    split; [done|]. split; [done|]. split.
    + apply count_square, square_choice.
    + intros x y Hx Hy. cbn [state].
      apply (item_tabulate (Z.to_nat n) (λ r c : nat, if coin r c then 1 else -1));
        lia.
Qed.

(** X6. A hotter lattice accepts more: for a draw in (0,1), a flip accepted
    at a positive temperature is accepted at every higher temperature set
    with [set_temperature]. *)
Theorem acceptance_monotone (self : t) (d : draw) (t1 t2 : R) :
  (0 < uniform d < 1)%R → (0 < t1 <= t2)%R →
  accepts (set_temperature self t1) d = true →
  accepts (set_temperature self t2) d = true.
Proof.
  intros Hu [Ht1 Ht12]. rewrite !accepts_spec. unfold log_p.
  change (delta_E (set_temperature self t1) (cell_i d) (cell_j d))
    with (delta_E self (cell_i d) (cell_j d)).
  change (delta_E (set_temperature self t2) (cell_i d) (cell_j d))
    with (delta_E self (cell_i d) (cell_j d)).
  cbn [temperature set_temperature].
  set (dE := delta_E self (cell_i d) (cell_j d)).
  pose proof kB_pos as HkB. pose proof (ln_unit_interval _ Hu) as Hln.
  assert (H1 : (0 < t1 * kB)%R) by (apply Rmult_lt_0_compat; lra).
  assert (H2 : (0 < t2 * kB)%R) by (apply Rmult_lt_0_compat; lra).
  intros Hacc. destruct (Rle_lt_dec dE 0) as [Hneg|Hpos].
  - eapply Rlt_le_trans; [exact Hln|].
    apply Rmult_le_pos; [lra|]. left. by apply Rinv_0_lt_compat.
  - eapply Rlt_le_trans; [exact Hacc|].
    unfold Rdiv. rewrite <- !Ropp_mult_distr_l.
    apply Ropp_le_contravar, Rmult_le_compat_l; [lra|].
    apply Rinv_le_contravar; [done|]. apply Rmult_le_compat_r; lra.
Qed.

(** ** The experiments *)

Section experiments.

Implicit Types (self : t) (d : draw) (ds : list draw).

Lemma updates_preserves self ds :
  shaped self → Forall (in_range (size self)) ds → spins (state self) →
  shaped (updates self ds) ∧ spins (state (updates self ds)) ∧
  size (updates self ds) = size self ∧
  temperature (updates self ds) = temperature self ∧
  step (updates self ds) = step self + Z.of_nat (length ds).
Proof.
  intros Hsh Hds Hsp.
  induction ds as [|d ds IH] using rev_ind.
  { simpl. do 4 (split; [done|]). lia. }
  apply Forall_app in Hds as [Hds Hd%Forall_inv].
  destruct (IH Hds) as (Hsh' & Hsp' & Hsize & Htemp & Hstep).
  rewrite updates_snoc, length_app. rewrite <- Hsize in Hd.
  split; [by apply update_shaped|]. split; [by apply update_spins|].
  simpl. do 2 (split; [done|]). lia.
Qed.

Lemma magnetism_range self (n : nat) :
  square n (state self) → (0 < n)%nat → spins (state self) →
  (-1 <= average_magnetism self <= 1)%R.
Proof.
  intros Hsq Hn Hsp. unfold average_magnetism.
  rewrite (count_square n) by done.
  pose proof (sum_bounds n (state self) Hsq Hsp) as [Hlo Hhi].
  assert (HD : (0 < INR (n * n))%R) by (apply lt_0_INR; nia).
  apply IZR_le in Hlo, Hhi.
  rewrite opp_IZR in Hlo.
  rewrite <- Nat2Z.inj_mul, <- INR_IZR_INZ in Hlo, Hhi.
  split; apply (Rmult_le_reg_r (INR (n * n))); try done;
    unfold Rdiv; rewrite Rmult_assoc, Rinv_l by lra; lra.
Qed.

Lemma anneal_snoc self (rounds : list (list draw)) ds :
  anneal self (rounds ++ [ds]) = anneal_round (anneal self rounds) ds.
Proof. unfold anneal. by rewrite foldl_app. Qed.

Lemma anneal_round_preserves self ds :
  shaped self → Forall (in_range (size self)) ds → spins (state self) →
  shaped (anneal_round self ds) ∧ spins (state (anneal_round self ds)) ∧
  size (anneal_round self ds) = size self ∧
  temperature (anneal_round self ds) = (temperature self - 1)%R ∧
  step (anneal_round self ds) = step self + Z.of_nat (length ds).
Proof.
  intros Hsh Hds Hsp.
  destruct (updates_preserves self ds Hsh Hds Hsp)
    as (Hsh' & Hsp' & Hsize & Htemp & Hstep).
  unfold anneal_round. cbn [set_temperature size state step temperature].
  rewrite Htemp. done.
Qed.

Lemma anneal_preserves self (rounds : list (list draw)) :
  shaped self → Forall (Forall (in_range (size self))) rounds →
  spins (state self) →
  shaped (anneal self rounds) ∧ spins (state (anneal self rounds)) ∧
  size (anneal self rounds) = size self ∧
  temperature (anneal self rounds) =
    (temperature self - INR (length rounds))%R ∧
  step (anneal self rounds) =
    step self + Z.of_nat (length (concat rounds)).
Proof.
  intros Hsh Hrs Hsp.
  induction rounds as [|ds rounds IH] using rev_ind.
  { simpl. do 3 (split; [done|]). split; [lra|lia]. }
  apply Forall_app in Hrs as [Hrs Hds%Forall_inv].
  destruct (IH Hrs) as (Hsh' & Hsp' & Hsize & Htemp & Hstep).
  rewrite <- Hsize in Hds.
  destruct (anneal_round_preserves _ ds Hsh' Hds Hsp')
    as (? & ? & Hsize2 & Htemp2 & Hstep2).
  rewrite anneal_snoc, concat_app, !length_app, plus_INR.
  rewrite Hsize2, Htemp2, Hstep2, Htemp, Hstep.
  do 3 (split; [done|]). simpl. rewrite length_app. simpl.
  split; [lra|lia].
Qed.

(** On a lattice of positive size no call of [update] raises. *)
Lemma call_updates_positive self ds :
  0 < size self → call_updates self ds = inr (updates self ds).
Proof.
  revert self. induction ds as [|d ds IH]; intros self Hpos; [done|].
  cbn [call_updates]. unfold call_update.
  destruct (size self <=? 0) eqn:Hle; [lia|]. by apply IH.
Qed.

(** On a lattice without cells the first call of [update] raises. *)
Lemma call_updates_empty self ds :
  size self <= 0 → ds ≠ [] → call_updates self ds = inl ValueError.
Proof.
  intros Hle Hds. destruct ds as [|d ds]; [done|].
  cbn [call_updates]. unfold call_update.
  by destruct (size self <=? 0) eqn:Hle'; [|lia].
Qed.

End experiments.

(** X7. A construction followed by [k] calls of [update]: on a negative
    size the construction raises [ValueError]; on the size 0 the first call
    of [update] raises [ValueError]; on a positive size nothing fails, and
    the simulation that is left has made [k] steps, still holds spins in a
    [size] by [size] lattice, has the size and the temperature it was built
    with, and an average magnetism between [-1] and [1]. *)
Theorem simulate_result (n : Z) (temp : R) (coin : nat → nat → bool)
    (ds : list draw) :
  (n < 0 → simulate n temp coin ds = inl ValueError) ∧
  (n = 0 → ds ≠ [] → simulate n temp coin ds = inl ValueError) ∧
  (0 < n → Forall (in_range n) ds →
   ∃ final, simulate n temp coin ds = inr final ∧
     step final = Z.of_nat (length ds) ∧
     size final = n ∧ temperature final = temp ∧
     shaped final ∧ spins (state final) ∧
     (-1 <= average_magnetism final <= 1)%R).
Proof.
  unfold simulate. split; [|split].
  - intros Hn. unfold __init__. destruct (n <? 0) eqn:Hlt; [done|lia].
  - intros -> Hds. cbn [__init__ Z.ltb Z.compare].
    by apply call_updates_empty.
  - intros Hn Hds.
    destruct (__init__ n temp coin) as [e|made] eqn:Hinit.
    { unfold __init__ in Hinit. destruct (n <? 0) eqn:Hlt; [lia|done]. }
    destruct (init_shaped n temp coin made Hinit) as [Hsh Hsp].
    destruct (init_inr n temp coin made Hinit) as [_ Hmade].
    assert (Hsize : size made = n) by by rewrite Hmade.
    rewrite <- Hsize in Hds.
    destruct (updates_preserves made ds Hsh Hds Hsp)
      as (Hsh' & Hsp' & Hsize' & Htemp & Hstep).
    exists (updates made ds).
    split; [apply call_updates_positive; lia|].
    assert (Hstep0 : step made = 0) by by rewrite Hmade.
    assert (Htemp0 : temperature made = temp) by by rewrite Hmade.
    rewrite Hstep, Hsize', Htemp, Hstep0, Htemp0, Hsize.
    split; [lia|]. do 4 (split; [done|]).
    apply (magnetism_range _ (Z.to_nat n)); [|lia|done].
    destruct Hsh' as [_ Hsq]. by rewrite Hsize', Hsize in Hsq.
Qed.

(** X8. On a lattice of positive size the cooling loop lowers the
    temperature by one at every round ([r] rounds from [t0] end at
    [t0 - r]), adds the number of draws to the step counter, and keeps the
    lattice a lattice of spins of the same size, whose average magnetism
    lies between [-1] and [1]. *)
Theorem anneal_result (self : t) (rounds : list (list draw)) :
  shaped self → 0 < size self →
  Forall (Forall (in_range (size self))) rounds →
  spins (state self) →
  temperature (anneal self rounds) =
    (temperature self - INR (length rounds))%R ∧
  step (anneal self rounds) =
    step self + Z.of_nat (length (concat rounds)) ∧
  size (anneal self rounds) = size self ∧
  shaped (anneal self rounds) ∧ spins (state (anneal self rounds)) ∧
  (-1 <= average_magnetism (anneal self rounds) <= 1)%R.
Proof.
  intros Hsh Hpos Hrs Hsp.
  destruct (anneal_preserves self rounds Hsh Hrs Hsp)
    as (Hsh' & Hsp' & Hsize & Htemp & Hstep).
  do 5 (split; [done|]).
  apply (magnetism_range _ (Z.to_nat (size self))); [|lia|done].
  destruct Hsh' as [_ Hsq]. by rewrite Hsize in Hsq.
Qed.

(** X9. In the cooling loop that starts at temperature [t0] and runs [r]
    rounds with [r <= t0], the calls of [update] of round [k] run at the
    temperature [t0 - k], which is at least 1; when [r = t0], as in the
    notebook (2000 rounds from 2000), the loop ends at temperature 0. *)
Theorem anneal_schedule (self : t) (rounds : list (list draw)) (k : nat) :
  shaped self → Forall (Forall (in_range (size self))) rounds →
  spins (state self) →
  (INR (length rounds) <= temperature self)%R → (k < length rounds)%nat →
  temperature (anneal self (take k rounds)) = (temperature self - INR k)%R ∧
  (1 <= temperature (anneal self (take k rounds)))%R ∧
  (temperature self = INR (length rounds) →
   temperature (anneal self rounds) = 0%R).
Proof.
  intros Hsh Hrs Hsp Ht Hk.
  destruct (anneal_preserves self (take k rounds) Hsh
              ltac:(by apply Forall_take) Hsp) as (_ & _ & _ & Htk & _).
  rewrite length_take, Nat.min_l in Htk by lia.
  split; [done|]. split.
  - rewrite Htk. apply lt_INR in Hk as Hk'.
    assert (INR k + 1 <= INR (length rounds))%R.
    { rewrite <- S_INR. apply le_INR. lia. }
    lra.
  - intros Heq.
    destruct (anneal_preserves self rounds Hsh Hrs Hsp)
      as (_ & _ & _ & Htr & _).
    rewrite Htr. lra.
Qed.

(** ** Degrees in a graph *)

Section degrees.

Context {A B : Type}.

Implicit Types (f g : A → Z) (l : list A).

Lemma total_app f l l' : nx.total f (l ++ l') = nx.total f l + nx.total f l'.
Proof. induction l as [|x l IH]; simpl; lia. Qed.

Lemma total_ext f g l :
  (∀ x, x ∈ l → f x = g x) → nx.total f l = nx.total g l.
Proof.
  induction l as [|x l IH]; intros Hfg; [done|]. simpl.
  rewrite Hfg, IH; [done| |]; intros; try apply Hfg; set_solver.
Qed.

Lemma total_add f g l :
  nx.total (λ x, f x + g x) l = nx.total f l + nx.total g l.
Proof. induction l as [|x l IH]; simpl; lia. Qed.

Lemma total_scale c f l : nx.total (λ x, c * f x) l = c * nx.total f l.
Proof. induction l as [|x l IH]; simpl; lia. Qed.

Lemma total_zero l : nx.total (λ _ : A, 0) l = 0.
Proof. induction l as [|x l IH]; simpl; lia. Qed.

Lemma total_const c l : nx.total (λ _ : A, c) l = Z.of_nat (length l) * c.
Proof. induction l as [|x l IH]; simpl; lia. Qed.

Lemma total_nonneg f l : (∀ x, 0 <= f x) → 0 <= nx.total f l.
Proof.
  intros Hf. induction l as [|x l IH]; simpl; [lia|]. specialize (Hf x). lia.
Qed.

(** The loop [for x in l: acc += f(x)]. *)
Lemma foldl_total f (z : Z) l :
  foldl (λ acc x, acc + f x) z l = z + nx.total f l.
Proof.
  revert z. induction l as [|x l IH]; intros z; simpl; [lia|].
  rewrite IH. lia.
Qed.

End degrees.

Lemma total_swap {A B : Type} (h : A → B → Z) (l : list A) (k : list B) :
  nx.total (λ x, nx.total (λ y, h x y) k) l =
  nx.total (λ y, nx.total (λ x, h x y) l) k.
Proof.
  induction l as [|x l IH].
  - change (0 = nx.total (λ _ : B, 0) k). by rewrite total_zero.
  - change (nx.total (λ y, h x y) k +
            nx.total (λ x, nx.total (λ y, h x y) k) l =
            nx.total (λ y, h x y + nx.total (λ x, h x y) l) k).
    by rewrite IH, <- total_add.
Qed.

Section handshake.

Implicit Types (G : nx.Graph) (v : nat) (e : nat * nat).

(** A sum over the nodes that only looks at one node. *)
Lemma total_pick (l : list nat) (u : nat) (c : nat → Z) :
  NoDup l → u ∈ l →
  nx.total (λ v, (if decide (u = v) then 1 else 0) * c v) l = c u.
Proof.
  induction l as [|x l IH]; intros Hnd Hu; [set_solver|].
  apply NoDup_cons in Hnd as [Hx Hnd]. simpl.
  destruct (decide (u = x)) as [->|Hne].
  - rewrite (total_ext _ (λ _, 0)), total_zero; [lia|].
    intros v Hv. rewrite decide_False; [lia|]. set_solver.
  - rewrite IH; [lia|done|]. by apply elem_of_cons in Hu as [?|?].
Qed.

Lemma total_ends_at (l : list nat) e (c : nat → Z) :
  NoDup l → e.1 ∈ l → e.2 ∈ l →
  nx.total (λ v, nx.ends_at e v * c v) l = c e.1 + c e.2.
Proof.
  intros Hnd H1 H2. unfold nx.ends_at.
  rewrite (total_ext _ (λ v,
    (if decide (e.1 = v) then 1 else 0) * c v +
    (if decide (e.2 = v) then 1 else 0) * c v)) by (intros; lia).
  by rewrite total_add, !total_pick.
Qed.

(** Weighted handshake: summing [c] over the ends of the edges is summing
    [degree * c] over the nodes. *)
Lemma total_degree_weighted G (c : nat → Z) :
  nx.wf G →
  nx.total (λ v, nx.degree G v * c v) (nx.nodes G) =
  nx.total (λ e, c e.1 + c e.2) (nx.edges G).
Proof.
  intros [Hnd Hends]. unfold nx.degree.
  rewrite (total_ext _ (λ v,
    nx.total (λ e, nx.ends_at e v * c v) (nx.edges G))).
  2:{ intros v _. rewrite <- (Z.mul_comm (c v)), <- total_scale.
      apply total_ext. intros; lia. }
  rewrite total_swap. apply total_ext. intros e He.
  destruct (proj1 (Forall_forall _ _) Hends e He) as [H1 H2].
  by apply total_ends_at.
Qed.

Lemma total_degree G :
  nx.wf G →
  nx.total (nx.degree G) (nx.nodes G) = 2 * Z.of_nat (length (nx.edges G)).
Proof.
  intros Hwf.
  rewrite (total_ext _ (λ v, nx.degree G v * 1)) by (intros; lia).
  rewrite (total_degree_weighted G (λ _, 1)) by done.
  rewrite total_const. lia.
Qed.

Lemma degree_nonneg G v : 0 <= nx.degree G v.
Proof.
  apply total_nonneg. intros e. unfold nx.ends_at.
  destruct (decide (e.1 = v)), (decide (e.2 = v)); lia.
Qed.

Lemma total_cons {A : Type} (f : A → Z) (x : A) (l : list A) :
  nx.total f (x :: l) = f x + nx.total f l.
Proof. reflexivity. Qed.

Lemma total_mix (d : nat → Z) (l : list nat) (x : Z) :
  2 * x * nx.total d l <=
  nx.total (λ v, d v * d v) l + Z.of_nat (length l) * (x * x).
Proof.
  induction l as [|y l IH]; [simpl; lia|].
  rewrite !total_cons, length_cons, Nat2Z.inj_succ.
  assert (0 <= (d y - x) * (d y - x)) by apply Z.square_nonneg. nia.
Qed.

(** Cauchy-Schwarz for a list of integers. *)
Lemma total_square (d : nat → Z) (l : list nat) :
  nx.total d l * nx.total d l <=
  Z.of_nat (length l) * nx.total (λ v, d v * d v) l.
Proof.
  induction l as [|y l IH]; [simpl; lia|].
  rewrite !total_cons, length_cons, Nat2Z.inj_succ.
  pose proof (total_mix d l (d y)) as Hy.
  set (T := nx.total d l) in *.
  set (S2 := nx.total (λ v, d v * d v) l) in *.
  set (n := Z.of_nat (length l)) in *.
  set (a := d y) in *.
  replace ((a + T) * (a + T)) with (a * a + 2 * a * T + T * T) by ring.
  replace (Z.succ n * (a * a + S2))
    with (a * a + S2 + n * (a * a) + n * S2) by ring.
  lia.
Qed.

End handshake.

Section averages.

Implicit Types (G : nx.Graph).

Lemma sum_over_nodes G :
  foldl (λ deg node, deg + nx.degree G node) 0 (nx.nodes G) =
  nx.total (nx.degree G) (nx.nodes G).
Proof. by rewrite foldl_total. Qed.

Lemma sum_over_edges G :
  foldl (λ deg (edge : nat * nat),
    deg + nx.degree G edge.1 + nx.degree G edge.2) 0 (nx.edges G) =
  nx.total (λ e, nx.degree G e.1 + nx.degree G e.2) (nx.edges G).
Proof.
  assert (H : ∀ (l : list (nat * nat)) z,
    foldl (λ deg (edge : nat * nat),
      deg + nx.degree G edge.1 + nx.degree G edge.2) z l =
    z + nx.total (λ e, nx.degree G e.1 + nx.degree G e.2) l).
  { induction l as [|e l IH]; intros z; simpl; [lia|]. rewrite IH. lia. }
  rewrite H. lia.
Qed.

Lemma nodes_of_edges G :
  nx.wf G → nx.edges G ≠ [] → nx.nodes G ≠ [].
Proof.
  intros [_ Hends] He Hn. destruct (nx.edges G) as [|e l]; [done|].
  apply Forall_inv in Hends as [H1 _]. rewrite Hn in H1. by inversion H1.
Qed.

Lemma inject_Z_nonzero (z : Z) : z ≠ 0 → ¬ (inject_Z z == 0)%Q.
Proof. intros Hz. unfold Qeq. simpl. lia. Qed.

Lemma inject_Z_pos (z : Z) : 0 < z → (0 < inject_Z z)%Q.
Proof. intros Hz. change 0%Q with (inject_Z 0). by rewrite <- Zlt_Qlt. Qed.

End averages.

(** X10. [avg_degree] raises [ZeroDivisionError] exactly on the graph
    without nodes; on any other graph it returns twice the number of edges
    over the number of nodes. *)
Theorem avg_degree_handshake (G : nx.Graph) :
  nx.wf G →
  (nx.avg_degree G = inl nx.ZeroDivisionError ↔ nx.nodes G = []) ∧
  (nx.nodes G ≠ [] →
   nx.avg_degree G =
     inr (inject_Z (2 * Z.of_nat (length (nx.edges G)))%Z /
          inject_Z (Z.of_nat (length (nx.nodes G))))%Q).
Proof.
  intros Hwf. unfold nx.avg_degree.
  rewrite sum_over_nodes, total_degree by done.
  destruct (decide (length (nx.nodes G) = O)) as [Hlen|Hlen].
  - apply length_zero_iff_nil in Hlen. split; [done|]. by intros [].
  - split; [|done]. split; [done|]. intros Hnil. by rewrite Hnil in Hlen.
Qed.

(** X11. [avg_neighbor_degree] raises [ZeroDivisionError] exactly on the
    graph without edges; on any other graph it returns the sum of the
    squares of the degrees over twice the number of edges. *)
Theorem avg_neighbor_degree_squares (G : nx.Graph) :
  nx.wf G →
  (nx.avg_neighbor_degree G = inl nx.ZeroDivisionError ↔ nx.edges G = []) ∧
  (nx.edges G ≠ [] →
   nx.avg_neighbor_degree G =
     inr (inject_Z (nx.total (λ v, nx.degree G v * nx.degree G v)%Z
                      (nx.nodes G)) /
          inject_Z (Z.of_nat (2 * length (nx.edges G))))%Q).
Proof.
  intros Hwf. unfold nx.avg_neighbor_degree.
  rewrite sum_over_edges, <- (total_degree_weighted G (nx.degree G)) by done.
  destruct (decide (2 * length (nx.edges G) = O)%nat) as [Hlen|Hlen].
  - assert (Hnil : nx.edges G = []) by (apply length_zero_iff_nil; lia).
    split; [done|]. by intros [].
  - split; [|done]. split; [done|]. intros Hnil.
    rewrite Hnil in Hlen. done.
Qed.

(** X12. On a graph with an edge the average degree of the neighbours is
    at least the average degree. *)
Theorem friendship_paradox (G : nx.Graph) :
  nx.wf G → nx.edges G ≠ [] →
  ∃ mean mean', nx.avg_degree G = inr mean ∧
    nx.avg_neighbor_degree G = inr mean' ∧ (mean <= mean')%Q.
Proof.
  intros Hwf He. pose proof (nodes_of_edges G Hwf He) as Hn.
  unfold nx.avg_degree, nx.avg_neighbor_degree.
  rewrite sum_over_nodes, sum_over_edges.
  rewrite <- (total_degree_weighted G (nx.degree G)) by done.
  pose proof (total_square (nx.degree G) (nx.nodes G)) as Hcs.
  pose proof (total_degree G Hwf) as Hsum.
  assert (Hlen : length (nx.nodes G) ≠ O)
    by (intros H; by apply length_zero_iff_nil in H).
  assert (Hlen' : (2 * length (nx.edges G))%nat ≠ O).
  { intros H. apply He, length_zero_iff_nil. lia. }
  rewrite !decide_False by done.
  eexists _, _. split; [done|]. split; [done|].
  set (S1 := nx.total (nx.degree G) (nx.nodes G)) in *.
  set (S2 := nx.total (λ v, nx.degree G v * nx.degree G v) (nx.nodes G)) in *.
  replace (Z.of_nat (2 * length (nx.edges G))) with S1 by lia.
  assert (HS1 : 0 < S1) by lia.
  assert (Hnpos : 0 < Z.of_nat (length (nx.nodes G))) by lia.
  apply Qle_shift_div_r; [by apply inject_Z_pos|].
  unfold Qdiv. rewrite <- Qmult_assoc, (Qmult_comm (/ _)), Qmult_assoc.
  apply Qle_shift_div_l; [by apply inject_Z_pos|].
  rewrite <- !inject_Z_mult, <- Zle_Qle. lia.
Qed.

(** X13. On a graph with an edge whose nodes all have the degree [k], both
    averages are [k]. *)
Theorem regular_graph_averages (G : nx.Graph) (k : Z) :
  nx.wf G → nx.edges G ≠ [] →
  Forall (λ v, nx.degree G v = k) (nx.nodes G) →
  ∃ mean mean', nx.avg_degree G = inr mean ∧
    nx.avg_neighbor_degree G = inr mean' ∧
    (mean == inject_Z k)%Q ∧ (mean' == inject_Z k)%Q.
Proof.
  intros Hwf He Hreg. pose proof (nodes_of_edges G Hwf He) as Hn.
  unfold nx.avg_degree, nx.avg_neighbor_degree.
  rewrite sum_over_nodes, sum_over_edges.
  rewrite <- (total_degree_weighted G (nx.degree G)) by done.
  pose proof (total_degree G Hwf) as Hsum.
  assert (Hlen : length (nx.nodes G) ≠ O)
    by (intros H; by apply length_zero_iff_nil in H).
  assert (Hlen' : (2 * length (nx.edges G))%nat ≠ O).
  { intros H. apply He, length_zero_iff_nil. lia. }
  rewrite !decide_False by done.
  eexists _, _. split; [done|]. split; [done|].
  assert (H1 : nx.total (nx.degree G) (nx.nodes G) =
               Z.of_nat (length (nx.nodes G)) * k).
  { rewrite <- total_const. apply total_ext. intros v Hv.
    exact (proj1 (Forall_forall _ _) Hreg v Hv). }
  assert (H2 : nx.total (λ v, nx.degree G v * nx.degree G v) (nx.nodes G) =
               k * nx.total (nx.degree G) (nx.nodes G)).
  { rewrite <- total_scale. apply total_ext. intros v Hv.
    by rewrite (proj1 (Forall_forall _ _) Hreg v Hv). }
  split.
  - rewrite H1, inject_Z_mult. field. apply inject_Z_nonzero. lia.
  - rewrite H2, Hsum.
    replace (Z.of_nat (2 * length (nx.edges G)))
      with (2 * Z.of_nat (length (nx.edges G))) by lia.
    rewrite inject_Z_mult. field. apply inject_Z_nonzero. lia.
Qed.

(** ** The synchronous SIS update *)

Section sis_update.

Implicit Types (g nextg : nx.Graph) (rnd : nat → sis.draw) (a : nat)
  (l : list nat).

Lemma set_state_inr nextg a v G :
  sis.set_state nextg a v = inr G →
  a ∈ nx.nodes nextg ∧ nx.nodes G = nx.nodes nextg ∧
  nx.edges G = nx.edges nextg ∧ nx.attr G = <[a := v]> (nx.attr nextg).
Proof.
  unfold sis.set_state. destruct (decide (a ∈ nx.nodes nextg)); [|done].
  by intros [= <-].
Qed.

(** One iteration writes the outcome of its node, if there is one, and
    nothing else. *)
Lemma visit_inr g rnd nextg a G :
  sis.visit g rnd nextg a = inr G →
  nx.nodes G = nx.nodes nextg ∧ nx.edges G = nx.edges nextg ∧
  is_Some (nx.attr g !! a) ∧
  nx.attr G = match sis.outcome g rnd a with
              | Some v => <[a := v]> (nx.attr nextg)
              | None => nx.attr nextg
              end.
Proof.
  unfold sis.visit, sis.outcome.
  destruct (nx.attr g !! a) as [s|]; [|done].
  destruct (decide (s = 0)).
  - destruct (sis.choice _ _) as [|b]; [done|].
    destruct (nx.attr g !! b) as [sb|]; [|done].
    destruct (decide (sb = 1)) as [->|Hsb].
    + rewrite decide_True by done.
      intros (_ & ? & ? & ?)%set_state_inr. eauto.
    + rewrite decide_False by congruence. intros [= <-]. eauto.
  - intros (_ & ? & ? & ?)%set_state_inr. eauto.
Qed.

Lemma visit_all_inr g rnd l nextg G :
  sis.visit_all g rnd nextg l = inr G →
  nx.nodes G = nx.nodes nextg ∧ nx.edges G = nx.edges nextg ∧
  Forall (λ a, is_Some (nx.attr g !! a)) l ∧
  ∀ a, nx.attr G !! a =
       if decide (a ∈ l)
       then match sis.outcome g rnd a with
            | Some v => Some v
            | None => nx.attr nextg !! a
            end
       else nx.attr nextg !! a.
Proof.
  revert nextg. induction l as [|x l IH]; intros nextg.
  { intros [= <-]. do 3 (split; [done|]). intros a.
    rewrite decide_False; [done|]. by apply not_elem_of_nil. }
  cbn [sis.visit_all].
  destruct (sis.visit g rnd nextg x) as [|next1] eqn:Hx; [done|].
  apply visit_inr in Hx as (Hn1 & He1 & Hsome & Ha1).
  intros (Hn & He & Hall & Ha)%IH.
  split; [congruence|]. split; [congruence|].
  split; [by apply Forall_cons|].
  intros a. rewrite Ha, Ha1. clear Ha Ha1.
  destruct (decide (a = x)) as [->|Hne].
  - rewrite (decide_True (P := x ∈ x :: l)) by apply list_elem_of_here.
    destruct (sis.outcome g rnd x) as [v|].
    + rewrite lookup_insert_eq. by destruct (decide (x ∈ l)).
    + by destruct (decide (x ∈ l)).
  - assert (Hiff : a ∈ x :: l ↔ a ∈ l).
    { rewrite elem_of_cons. split; [by intros [?|?]|by right]. }
    assert (Hlook : match sis.outcome g rnd x with
                    | Some v => <[x := v]> (nx.attr nextg)
                    | None => nx.attr nextg
                    end !! a = nx.attr nextg !! a).
    { destruct (sis.outcome g rnd x); [by rewrite lookup_insert_ne|done]. }
    rewrite Hlook.
    destruct (decide (a ∈ l)).
    + by rewrite decide_True by by apply Hiff.
    + by rewrite decide_False by by rewrite Hiff.
Qed.

(** A node without a state stops the loop. *)
Lemma visit_all_missing g rnd l nextg a :
  a ∈ l → nx.attr g !! a = None →
  ∃ e, sis.visit_all g rnd nextg l = inl e.
Proof.
  intros Ha Hnone. revert nextg.
  induction l as [|x l IH]; intros nextg; [by apply elem_of_nil in Ha|].
  cbn [sis.visit_all].
  destruct (sis.visit g rnd nextg x) as [e|next1] eqn:Hx; [eauto|].
  apply elem_of_cons in Ha as [->|Ha]; [|by apply IH].
  apply visit_inr in Hx as (_ & _ & [s Hs] & _). congruence.
Qed.

Lemma choice_inr (seq : list nat) k b :
  sis.choice seq k = inr b → b ∈ seq.
Proof.
  destruct seq as [|x seq]; [done|].
  pose proof (Nat.mod_upper_bound k (length (x :: seq)) ltac:(done)) as Hlt.
  unfold sis.choice. intros [= <-].
  apply list_elem_of_lookup. exists (k mod length (x :: seq))%nat.
  apply list_lookup_lookup_total_lt. exact Hlt.
Qed.

Lemma neighbors_nodes g a b :
  nx.wf g → b ∈ nx.neighbors g a → b ∈ nx.nodes g.
Proof.
  intros [_ Hends]. unfold nx.neighbors.
  intros (e & He & Hb)%list_elem_of_In%in_flat_map.
  apply list_elem_of_In in He, Hb.
  destruct (proj1 (Forall_forall _ _) Hends e He) as [H1 H2].
  destruct (decide (e.1 = a)).
  { by apply list_elem_of_singleton in Hb as ->. }
  destruct (decide (e.2 = a)).
  { by apply list_elem_of_singleton in Hb as ->. }
  by apply elem_of_nil in Hb.
Qed.

End sis_update.

Section sis_errors.

Implicit Types (g nextg : nx.Graph) (rnd : nat → sis.draw) (a : nat)
  (l : list nat).

(** Under the invariants of networkx, with a state on every node, one
    iteration fails only on a susceptible node without neighbours. *)
Lemma visit_cases g rnd nextg a :
  nx.wf g → Forall (λ v, is_Some (nx.attr g !! v)) (nx.nodes g) →
  a ∈ nx.nodes g → a ∈ nx.nodes nextg →
  (sis.isolated g a ∧ sis.visit g rnd nextg a = inl nx.IndexError) ∨
  (¬ sis.isolated g a ∧ ∃ G, sis.visit g rnd nextg a = inr G).
Proof.
  intros Hwf Hst Ha Ha'. unfold sis.isolated, sis.visit.
  destruct (proj1 (Forall_forall _ _) Hst a Ha) as [s Hs]. rewrite Hs.
  destruct (decide (s = 0)) as [->|Hs0].
  - destruct (nx.neighbors g a) as [|x nb] eqn:Hnb.
    { left. by split. }
    right. split; [by intros [_ ?]|].
    destruct (sis.choice (x :: nb) (sis.pick (rnd a))) as [|b] eqn:Hb;
      [done|].
    apply choice_inr in Hb. rewrite <- Hnb in Hb.
    apply (neighbors_nodes g a b Hwf) in Hb.
    destruct (proj1 (Forall_forall _ _) Hst b Hb) as [sb ->].
    destruct (decide (sb = 1)); [|eauto].
    unfold sis.set_state. rewrite decide_True by done. eauto.
  - right. split; [intros [[= ?] _]; done|].
    unfold sis.set_state. rewrite decide_True by done. eauto.
Qed.

Lemma visit_all_cases g rnd l nextg :
  nx.wf g → Forall (λ v, is_Some (nx.attr g !! v)) (nx.nodes g) →
  l ⊆ nx.nodes g → nx.nodes g ⊆ nx.nodes nextg →
  (Exists (sis.isolated g) l ∧
   sis.visit_all g rnd nextg l = inl nx.IndexError) ∨
  (Forall (λ a, ¬ sis.isolated g a) l ∧
   ∃ G, sis.visit_all g rnd nextg l = inr G).
Proof.
  intros Hwf Hst. revert nextg.
  induction l as [|x l IH]; intros nextg Hl Hsub.
  { right. split; [done|]. simpl. eauto. }
  assert (Hx : x ∈ nx.nodes g) by (apply Hl, list_elem_of_here).
  assert (Hl' : l ⊆ nx.nodes g).
  { intros y Hy. by apply Hl, list_elem_of_further. }
  cbn [sis.visit_all].
  destruct (visit_cases g rnd nextg x Hwf Hst Hx (Hsub x Hx))
    as [[Hiso ->]|[Hiso [G HG]]].
  { left. split; [by apply Exists_cons_hd|done]. }
  rewrite HG. apply visit_inr in HG as (Hn & _).
  destruct (IH G Hl') as [[Hex Hres]|[Hall Hres]].
  - by rewrite Hn.
  - left. split; [by apply Exists_cons_tl|done].
  - right. split; [by apply Forall_cons|done].
Qed.

End sis_errors.

(** X14. [update] never writes the graph it reads: when it returns, the new
    [nextg] is the old [g], and the new [g] has the nodes and the edges of
    the old [nextg], not those of the old [g]. *)
Theorem sis_update_swaps (g nextg g' nextg' : nx.Graph)
    (rnd : nat → sis.draw) :
  sis.update g nextg rnd = inr (g', nextg') →
  nextg' = g ∧ nx.nodes g' = nx.nodes nextg ∧ nx.edges g' = nx.edges nextg.
Proof.
  unfold sis.update.
  destruct (sis.visit_all g rnd nextg (nx.nodes g)) as [|G] eqn:HG; [done|].
  intros [= <- <-]. by apply visit_all_inr in HG as (? & ? & _).
Qed.

(** X15. After [update] the state of a node of [g] is the state drawn for
    it when it was infected, or susceptible with an infected neighbour
    picked; when it was susceptible and the neighbour picked was not
    infected, nothing is written and the node keeps whatever [nextg] held
    for it, possibly no state at all. *)
Theorem sis_update_states (g nextg g' nextg' : nx.Graph)
    (rnd : nat → sis.draw) (a : nat) :
  sis.update g nextg rnd = inr (g', nextg') →
  nx.attr g' !! a =
    if decide (a ∈ nx.nodes g)
    then match sis.outcome g rnd a with
         | Some v => Some v
         | None => nx.attr nextg !! a
         end
    else nx.attr nextg !! a.
Proof.
  unfold sis.update.
  destruct (sis.visit_all g rnd nextg (nx.nodes g)) as [|G] eqn:HG; [done|].
  intros [= <- <-]. by apply visit_all_inr in HG as (_ & _ & _ & ->).
Qed.

(** X16. On a graph with a state on every node, and a [nextg] that has the
    nodes of [g], [update] raises [IndexError] when some susceptible node
    has no neighbour, and returns otherwise. *)
Theorem sis_update_isolated (g nextg : nx.Graph) (rnd : nat → sis.draw) :
  nx.wf g → Forall (λ v, is_Some (nx.attr g !! v)) (nx.nodes g) →
  nx.nodes g ⊆ nx.nodes nextg →
  (Exists (sis.isolated g) (nx.nodes g) →
   sis.update g nextg rnd = inl nx.IndexError) ∧
  (Forall (λ a, ¬ sis.isolated g a) (nx.nodes g) →
   ∃ g', sis.update g nextg rnd = inr (g', g)).
Proof.
  intros Hwf Hst Hsub. unfold sis.update.
  destruct (visit_all_cases g rnd (nx.nodes g) nextg Hwf Hst
              ltac:(done) Hsub) as [[Hex ->]|[Hall [G ->]]].
  - split; [done|]. intros Hall.
    apply Exists_exists in Hex as (a & Ha & Hiso).
    by destruct (proj1 (Forall_forall _ _) Hall a Ha).
  - split; [|eauto]. intros Hex.
    apply Exists_exists in Hex as (a & Ha & Hiso).
    by destruct (proj1 (Forall_forall _ _) Hall a Ha).
Qed.

(** X17. The buffer is used before it is filled: if [nextg] holds no state
    for a node [a], and [a] is susceptible and picks a neighbour that is
    not infected, then the [update] that follows a successful [update]
    raises an exception, whatever it draws. *)
Theorem sis_second_update_fails (g nextg g' nextg' : nx.Graph)
    (rnd rnd' : nat → sis.draw) (a b : nat) :
  sis.update g nextg rnd = inr (g', nextg') →
  a ∈ nx.nodes g → a ∈ nx.nodes nextg → nx.attr nextg !! a = None →
  nx.attr g !! a = Some 0 →
  sis.choice (nx.neighbors g a) (sis.pick (rnd a)) = inr b →
  nx.attr g !! b ≠ Some 1 →
  ∃ e, sis.update g' nextg' rnd' = inl e.
Proof.
  intros Hup Ha Ha' Hnone Hsus Hpick Hb.
  assert (Hout : sis.outcome g rnd a = None).
  { unfold sis.outcome. rewrite Hsus, decide_True, Hpick by done.
    by rewrite decide_False. }
  unfold sis.update in Hup.
  destruct (sis.visit_all g rnd nextg (nx.nodes g)) as [|G] eqn:HG; [done|].
  injection Hup as <- <-.
  apply visit_all_inr in HG as (Hn & _ & _ & Hattr).
  specialize (Hattr a). rewrite decide_True, Hout, Hnone in Hattr by done.
  destruct (visit_all_missing G rnd' (nx.nodes G) g a) as [e He];
    [by rewrite Hn|done|].
  exists e. unfold sis.update. by rewrite He.
Qed.

(** X18. Without an infected node nothing is written: when every node of
    [g] is susceptible, the graph that [update] installs as [g] is the old
    [nextg], untouched. *)
Theorem sis_update_disease_free (g nextg g' nextg' : nx.Graph)
    (rnd : nat → sis.draw) :
  nx.wf g → Forall (λ v, nx.attr g !! v = Some 0) (nx.nodes g) →
  sis.update g nextg rnd = inr (g', nextg') →
  g' = nextg ∧ nextg' = g.
Proof.
  intros Hwf Hsus Hup. unfold sis.update in Hup.
  destruct (sis.visit_all g rnd nextg (nx.nodes g)) as [|G] eqn:HG; [done|].
  injection Hup as <- <-. split; [|done].
  apply visit_all_inr in HG as (Hn & He & _ & Hattr).
  destruct G as [n e m], nextg as [n' e' m']. simpl in *. subst n e.
  f_equal. apply map_eq. intros a. rewrite Hattr.
  destruct (decide (a ∈ nx.nodes g)) as [Ha|]; [|done].
  unfold sis.outcome.
  rewrite (proj1 (Forall_forall _ _) Hsus a Ha), decide_True by done.
  destruct (sis.choice _ _) as [|b] eqn:Hb; [done|].
  apply choice_inr, (neighbors_nodes g a b Hwf) in Hb.
  rewrite (proj1 (Forall_forall _ _) Hsus b Hb). by rewrite decide_False.
Qed.

Section sis_initialize.

Lemma combinations_spec (n : nat) (e : nat * nat) :
  e ∈ nx.combinations n → (e.1 < e.2 < n)%nat.
Proof.
  unfold nx.combinations.
  intros (u & Hu & He)%list_elem_of_In%in_flat_map.
  apply list_elem_of_In, elem_of_seq in Hu.
  apply list_elem_of_In, list_elem_of_fmap in He as (v & -> & Hv).
  apply elem_of_seq in Hv. simpl. lia.
Qed.

Lemma erdos_renyi_wf (n : nat) (present : nat → nat → bool) :
  nx.wf (nx.erdos_renyi_graph n present).
Proof.
  split; simpl; [apply NoDup_seq|].
  apply Forall_forall. intros e [_ He%combinations_spec]%list_elem_of_filter.
  rewrite !elem_of_seq. lia.
Qed.

Lemma initialize_states (l : list nat) (f : nat → Z) (g : nx.Graph) :
  let g' := foldl (λ (g : nx.Graph) i,
              {| nx.nodes := nx.nodes g; nx.edges := nx.edges g;
                 nx.attr := <[i := f i]> (nx.attr g) |}) g l in
  nx.nodes g' = nx.nodes g ∧ nx.edges g' = nx.edges g ∧
  ∀ i, nx.attr g' !! i =
       if decide (i ∈ l) then Some (f i) else nx.attr g !! i.
Proof.
  revert g. induction l as [|x l IH] using rev_ind; intros g; cbv zeta.
  { cbn [foldl]. do 2 (split; [done|]). intros i.
    rewrite decide_False; [done|]. apply not_elem_of_nil. }
  rewrite foldl_app. cbn [foldl nx.nodes nx.edges nx.attr].
  destruct (IH g) as (Hn & He & Ha). do 2 (split; [done|]).
  intros i. destruct (decide (i = x)) as [->|Hne].
  - rewrite lookup_insert_eq, decide_True; [done|].
    apply elem_of_app. right. apply list_elem_of_here.
  - rewrite lookup_insert_ne, Ha by done.
    destruct (decide (i ∈ l)) as [Hi|Hi].
    + rewrite decide_True; [done|]. apply elem_of_app. by left.
    + rewrite decide_False; [done|].
      intros [?|Hx%list_elem_of_singleton]%elem_of_app; done.
Qed.

Lemma initialize_wf (n : nat) (present present' : nat → nat → bool)
    (coins : nat → Q) :
  nx.wf (sis.initialize n present present' coins).1 ∧
  nx.wf (sis.initialize n present present' coins).2.
Proof.
  unfold sis.initialize. cbn [fst snd]. split; [|apply erdos_renyi_wf].
  change (nx.nodes (nx.erdos_renyi_graph n present)) with (seq 0 n).
  destruct (initialize_states (seq 0 n)
              (λ i, if Qlt_le_dec (coins i) 0.5 then 1 else 0)
              (nx.erdos_renyi_graph n present)) as (Hn & He & _).
  cbv zeta in Hn, He.
  destruct (erdos_renyi_wf n present) as [Hnd Hends].
  split; [by rewrite Hn|]. by rewrite Hn, He.
Qed.

End sis_initialize.

(** X19. [initialize] builds two graphs on the nodes [0 .. n-1] that keep
    the invariants of networkx; every node of [g] gets the state 1 when its
    draw is below 0.5 and 0 otherwise, and no node of [nextg] gets a
    state. *)
Theorem sis_initialize_result (n : nat) (present present' : nat → nat → bool)
    (coins : nat → Q) :
  let g := (sis.initialize n present present' coins).1 in
  let nextg := (sis.initialize n present present' coins).2 in
  nx.nodes g = seq 0 n ∧ nx.nodes nextg = seq 0 n ∧
  nx.wf g ∧ nx.wf nextg ∧ nx.attr nextg = ∅ ∧
  ∀ i, nx.attr g !! i =
       if decide (i < n)%nat
       then Some (if Qlt_le_dec (coins i) 0.5 then 1 else 0)
       else None.
Proof.
  intros g nextg. subst g nextg. unfold sis.initialize. cbn [fst snd].
  change (nx.nodes (nx.erdos_renyi_graph n present)) with (seq 0 n).
  destruct (initialize_states (seq 0 n)
              (λ i, if Qlt_le_dec (coins i) 0.5 then 1 else 0)
              (nx.erdos_renyi_graph n present)) as (Hn & He & Ha).
  cbv zeta in Hn, He, Ha.
  split; [done|]. split; [done|].
  split; [apply (initialize_wf n present present' coins)|].
  split; [apply erdos_renyi_wf|]. split; [done|].
  intros i. rewrite Ha. simpl.
  destruct (decide (i < n)%nat).
  - rewrite decide_True; [done|]. apply elem_of_seq. lia.
  - rewrite decide_False; [done|]. rewrite elem_of_seq. lia.
Qed.

(** ** The graph functions on small inputs *)

Section graph_examples.

Example avg_degree_kite : nx.avg_degree kite = inr (8 # 4).
Proof. reflexivity. Qed.

Example avg_neighbor_degree_kite : nx.avg_neighbor_degree kite = inr (18 # 8).
Proof. reflexivity. Qed.

Example avg_degree_no_nodes :
  nx.avg_degree (nx.erdos_renyi_graph 0 (λ _ _, true)) =
  inl nx.ZeroDivisionError.
Proof. reflexivity. Qed.

Example outbreak_neighbors : nx.neighbors outbreak.1 2 = [0; 1]%nat.
Proof. reflexivity. Qed.

Example outbreak_states :
  (λ a, nx.attr outbreak.1 !! a) <$> [0; 1; 2; 3]%nat =
  [Some 0; Some 1; Some 0; None].
Proof. vm_compute. reflexivity. Qed.

Example outbreak_update :
  match sis.update outbreak.1 outbreak.2 steady with
  | inr (g, _) => (λ a, nx.attr g !! a) <$> [0; 1; 2]%nat
  | inl _ => []
  end = [Some 1; Some 0; None].
Proof. vm_compute. reflexivity. Qed.

Example scattered_update :
  sis.update scattered.1 scattered.2 steady = inl nx.IndexError.
Proof. vm_compute. reflexivity. Qed.

End graph_examples.

(** ** The further properties at concrete inputs *)

Section concrete.

Lemma accepts_downhill (self : t) (d : draw) :
  (0 < uniform d < 1)%R → (0 < temperature self)%R →
  (delta_E self (cell_i d) (cell_j d) <= 0)%R → accepts self d = true.
Proof.
  intros Hu HT HE. apply accepts_spec.
  eapply Rlt_le_trans; [by apply ln_unit_interval|by apply log_p_nonneg].
Qed.

Lemma kite_wf : nx.wf kite.
Proof.
  split; [apply (NoDup_seq 0 4)|].
  repeat (apply Forall_cons; split;
          [split; apply (elem_of_seq 0 4); simpl; lia|]).
  apply Forall_nil_2.
Qed.

Lemma triangle_wf : nx.wf triangle.
Proof.
  split; [apply (NoDup_seq 0 3)|].
  repeat (apply Forall_cons; split;
          [split; apply (elem_of_seq 0 3); simpl; lia|]).
  apply Forall_nil_2.
Qed.

End concrete.

Lemma energy_bounds_witness :
  (- (2 * J * INR 2 ^ 2) <= energy sample <= 2 * J * INR 2 ^ 2)%R.
Proof.
  apply (energy_bounds sample 2); lattice_facts.
Defined.

Lemma delta_E_values_witness :
  ∃ k : Z, -2 <= k <= 2 ∧ delta_E sample 0 1 = (4 * J * IZR k)%R.
Proof.
  apply (delta_E_values sample 0 1); lattice_facts.
Defined.

Lemma update_twice_restores_witness :
  state (update (update striped corner_draw) corner_draw) = state striped ∧
  step (update (update striped corner_draw) corner_draw) = 2.
Proof.
  assert (Hu : (0 < uniform corner_draw < 1)%R) by (simpl; lra).
  assert (H1 : accepts striped corner_draw = true).
  { apply accepts_downhill; [done|simpl; lra|].
    unfold delta_E. change (neighbours striped 0 0) with 0.
    rewrite Rmult_0_r. lra. }
  assert (H2 : accepts (update striped corner_draw) corner_draw = true).
  { apply accepts_downhill; [done|simpl; lra|].
    unfold delta_E, update. rewrite H1.
    change (neighbours _ (cell_i corner_draw) (cell_j corner_draw)) with 0.
    rewrite Rmult_0_r. lra. }
  apply (update_twice_restores striped corner_draw corner_draw);
    (done || lattice_facts).
Defined.

Lemma update_total_spin_witness :
  np.sum (state (update sample sample_draw)) =
  np.sum (state sample) -
  (if accepts sample sample_draw then 2 * np.item (state sample) 0 1 else 0).
Proof.
  apply (update_total_spin sample sample_draw); lattice_facts.
Defined.

Lemma init_result_witness :
  __init__ (-1) 300 heads = inl ValueError ∧
  ∃ made, __init__ 2 300 heads = inr made ∧ shaped made.
Proof.
  split.
  - apply (proj1 (init_result (-1) 300 heads)). lia.
  - destruct (proj2 (init_result 2 300 heads) ltac:(lia))
      as (made & Hmade & Hsh & _). by exists made.
Defined.

Lemma acceptance_monotone_witness :
  accepts (set_temperature sample 1043) sample_draw = true.
Proof.
  apply (acceptance_monotone sample sample_draw 300 1043).
  - simpl. lra.
  - lra.
  - apply accepts_downhill; [simpl; lra|simpl; lra|].
    unfold delta_E.
    change (np.item (state (set_temperature sample 300)) (cell_i sample_draw)
              (cell_j sample_draw)) with (-1).
    change (neighbours (set_temperature sample 300) (cell_i sample_draw)
              (cell_j sample_draw)) with 4.
    pose proof J_pos. lra.
Defined.

Lemma simulate_result_witness :
  simulate 0 1043 heads [sample_draw] = inl ValueError ∧
  ∃ final, simulate 2 1043 heads [sample_draw; sample_draw] = inr final ∧
    step final = 2 ∧ size final = 2.
Proof.
  split.
  - apply (proj1 (proj2 (simulate_result 0 1043 heads [sample_draw])));
      done.
  - destruct (proj2 (proj2
        (simulate_result 2 1043 heads [sample_draw; sample_draw])))
      as (final & Hfinal & Hstep & Hsize & _); [lia|lattice_facts|].
    exists final. by split.
Defined.

Lemma anneal_result_witness :
  temperature (anneal sample [[sample_draw]; []; [sample_draw]]) =
    (300 - INR 3)%R ∧
  step (anneal sample [[sample_draw]; []; [sample_draw]]) = 2 ∧
  (-1 <= average_magnetism
           (anneal sample [[sample_draw]; []; [sample_draw]]) <= 1)%R.
Proof.
  destruct (anneal_result sample [[sample_draw]; []; [sample_draw]])
    as (Htemp & Hstep & _ & _ & _ & Hmag); [lattice_facts..|].
  split; [exact Htemp|]. split; [exact Hstep|exact Hmag].
Defined.

Lemma anneal_schedule_witness :
  (1 <= temperature (anneal sample (take 1 [[sample_draw]; [sample_draw]])))%R.
Proof.
  apply (anneal_schedule sample [[sample_draw]; [sample_draw]] 1).
  - lattice_facts.
  - lattice_facts.
  - lattice_facts.
  - simpl. lra.
  - simpl. lia.
Defined.

Lemma avg_degree_handshake_witness :
  nx.avg_degree kite = inr (inject_Z 8 / inject_Z 4)%Q.
Proof.
  apply (proj2 (avg_degree_handshake kite kite_wf)). done.
Defined.

Lemma avg_neighbor_degree_squares_witness :
  nx.avg_neighbor_degree kite = inr (inject_Z 18 / inject_Z 8)%Q.
Proof.
  apply (proj2 (avg_neighbor_degree_squares kite kite_wf)). done.
Defined.

Lemma friendship_paradox_witness :
  ∃ mean mean', nx.avg_degree kite = inr mean ∧
    nx.avg_neighbor_degree kite = inr mean' ∧ (mean <= mean')%Q.
Proof.
  apply (friendship_paradox kite kite_wf). done.
Defined.

Lemma regular_graph_averages_witness :
  ∃ mean mean', nx.avg_degree triangle = inr mean ∧
    nx.avg_neighbor_degree triangle = inr mean' ∧
    (mean == inject_Z 2)%Q ∧ (mean' == inject_Z 2)%Q.
Proof.
  apply (regular_graph_averages triangle 2 triangle_wf); [done|].
  repeat (apply Forall_cons; split; [reflexivity|]). apply Forall_nil_2.
Defined.

Lemma sis_update_swaps_witness :
  match sis.update outbreak.1 outbreak.2 steady with
  | inr (g', nextg') =>
      nextg' = outbreak.1 ∧ nx.nodes g' = nx.nodes outbreak.2 ∧
      nx.edges g' = nx.edges outbreak.2
  | inl _ => False
  end.
Proof.
  destruct (sis.update outbreak.1 outbreak.2 steady) as [e|[g' nextg']] eqn:H.
  - vm_compute in H. discriminate H.
  - exact (sis_update_swaps _ _ _ _ _ H).
Defined.

Lemma sis_update_states_witness :
  match sis.update outbreak.1 outbreak.2 steady with
  | inr (g', nextg') =>
      nx.attr g' !! 0%nat = Some 1 ∧ nx.attr g' !! 2%nat = None
  | inl _ => False
  end.
Proof.
  destruct (sis.update outbreak.1 outbreak.2 steady) as [e|[g' nextg']] eqn:H.
  - vm_compute in H. discriminate H.
  - split.
    + rewrite (sis_update_states _ _ _ _ _ 0%nat H). reflexivity.
    + rewrite (sis_update_states _ _ _ _ _ 2%nat H). reflexivity.
Defined.

Lemma sis_update_isolated_witness :
  sis.update scattered.1 scattered.2 steady = inl nx.IndexError.
Proof.
  apply (sis_update_isolated scattered.1 scattered.2 steady).
  - apply (initialize_wf 3 (λ _ _, false) (λ _ _, true) (λ _, 0.7%Q)).
  - repeat (apply Forall_cons; split; [by eexists|]). apply Forall_nil_2.
  - done.
  - apply Exists_cons_hd. by split.
Defined.

Lemma sis_second_update_fails_witness :
  match sis.update outbreak.1 outbreak.2 steady with
  | inr (g', nextg') => ∃ e, sis.update g' nextg' steady = inl e
  | inl _ => False
  end.
Proof.
  destruct (sis.update outbreak.1 outbreak.2 steady) as [e|[g' nextg']] eqn:H.
  - vm_compute in H. discriminate H.
  - apply (sis_second_update_fails outbreak.1 outbreak.2 g' nextg'
             steady steady 2 0 H).
    + apply (elem_of_seq 0 3). simpl. lia.
    + apply (elem_of_seq 0 3). simpl. lia.
    + reflexivity.
    + reflexivity.
    + reflexivity.
    + discriminate.
Defined.

Lemma sis_update_disease_free_witness :
  match sis.update healthy.1 healthy.2 steady with
  | inr (g', nextg') => g' = healthy.2 ∧ nextg' = healthy.1
  | inl _ => False
  end.
Proof.
  destruct (sis.update healthy.1 healthy.2 steady) as [e|[g' nextg']] eqn:H.
  - vm_compute in H. discriminate H.
  - apply (sis_update_disease_free healthy.1 healthy.2 g' nextg' steady).
    + apply (initialize_wf 3 (λ _ _, true) (λ _ _, true) (λ _, 0.7%Q)).
    + repeat (apply Forall_cons; split; [reflexivity|]). apply Forall_nil_2.
    + exact H.
Defined.

Lemma sis_initialize_result_witness :
  nx.attr outbreak.1 !! 1%nat = Some 1 ∧ nx.attr outbreak.2 = ∅.
Proof.
  destruct (sis_initialize_result 3 (λ _ _, true) (λ _ _, true)
              (λ i, if Nat.eqb i 1 then 0.2 else 0.7)%Q)
    as (_ & _ & _ & _ & Hempty & Hstate).
  split; [exact (Hstate 1%nat)|exact Hempty].
Defined.
